(** * cancelgroup: a task group whose Wait races completion against cancellation

    A shallow embedding of [group.go].  The package is a thin layer over three
    primitives of the Go standard library: [context] (a cancellable context
    with a cause, derived from a parent), [sync.Once] / [sync.OnceValue], and
    [sync.WaitGroup].  Each primitive is modelled by its state and its atomic
    operations, with the panics of [sync.WaitGroup] as results of their own;
    the methods of [Group] are functions on that state; and the goroutines the
    package starts (one per task, the watcher of [wait], the caller inside
    [wait]) are the threads of an interleaving semantics, one labelled step
    per operation on the shared state.  A schedule is a list of labels, so
    that a statement about every interleaving is a statement about every
    schedule that runs. *)

From Stdlib Require Import ZArith Lia.
From stdpp Require Import base tactics option list.

Local Open Scope Z_scope.

(** ** Error values

    A Go [error] is an interface value: nil ([None]) or a value with an
    identity.
    The two package sentinels and the two sentinels of [context] are
    constructors; any other error (one made by [errors.New] inside a task,
    a custom cause given to the parent) is [errorString id]. *)

Inductive error_value : Type :=
  | ErrorGroupCanceled            (* errors.New("Group canceled") *)
  | ErrorParentContextCanceled    (* errors.New("Group parent context was canceled") *)
  | Canceled                      (* context.Canceled *)
  | DeadlineExceeded              (* context.DeadlineExceeded *)
  | errorString (id : nat).

Abbreviation error := (option error_value).

#[global] Instance error_value_eq_dec : EqDecision error_value.
Proof. solve_decision. Defined.

(** ** package context *)

Module context.

(** A cancellable context: [err] is what [Err()] returns (nil until the
    context is done), [cause] what [context.Cause] returns.  A context is
    cancelled once: the first [cancel] sets both fields and closes [Done()],
    every later one returns without a change. *)
Record cancelCtx : Type := mk { err : error; cause : error }.

Definition Background : cancelCtx := mk None None.

(** [<-c.Done()] is ready exactly when [c.Err() != nil]. *)
Definition Done (c : cancelCtx) : bool :=
  match err c with Some _ => true | None => false end.

Definition Cause (c : cancelCtx) : error := cause c.

(** [c.cancel(_, e, cs)]: a nil cause defaults to the error; a context
    that is already cancelled is left as it is. *)
Definition cancel (e : error_value) (cs : error) (c : cancelCtx) : cancelCtx :=
  match err c with
  | Some _ => c
  | None => mk (Some e) (Some (default e cs))
  end.

(** A cancelled parent cancels its child with its own error and cause. *)
Definition propagateCancel (parent child : cancelCtx) : cancelCtx :=
  match err parent with
  | Some e => cancel e (Cause parent) child
  | None => child
  end.

(** The context half of [context.WithCancelCause(parent)]; the function
    half is [cancel Canceled] applied to the returned context. *)
Definition WithCancelCause (parent : cancelCtx) : cancelCtx :=
  propagateCancel parent (mk None None).

End context.

(** ** package sync *)

Module sync.

(** [sync.WaitGroup].  Its state word holds the counter and the number of
    parked waiters; [sema] counts the wake-ups that [Add] has released and
    no waiter has consumed yet.  The three panics of the type are results:
    "sync: negative WaitGroup counter", "sync: WaitGroup misuse: Add called
    concurrently with Wait" and "sync: WaitGroup is reused before previous
    Wait has returned".  Each operation on the state word is one step; the
    counter is a [Z] (the 32 bits of the real one are never exhausted by
    goroutines that exist). *)
Record WaitGroup : Type := mk { counter : Z; waiters : nat; sema : nat }.

Definition zero : WaitGroup := mk 0 0 0.

(** [Add(delta)]: add to the counter; panic on a negative counter, or when
    a waiter is parked although the counter was zero; when the counter
    reaches zero with waiters parked, reset the state and release them.
    [None] is a panic. *)
Definition Add (delta : Z) (wg : WaitGroup) : option WaitGroup :=
  let v := counter wg + delta in
  let w := waiters wg in
  if v <? 0 then None                          (* negative WaitGroup counter *)
  else if negb (w =? 0)%nat && (0 <? delta) && (v =? delta)
  then None                                    (* Add called concurrently with Wait *)
  else if (0 <? v) || (w =? 0)%nat then Some (mk v w (sema wg))
  else Some (mk 0 0 (sema wg + w)%nat).        (* counter hit 0: release the waiters *)

(** [Wait], entry: return at once on a zero counter ([inl]), otherwise
    register as a waiter and park ([inr]). *)
Definition Wait_enter (wg : WaitGroup) : WaitGroup + WaitGroup :=
  if counter wg =? 0 then inl wg
  else inr (mk (counter wg) (S (waiters wg)) (sema wg)).

(** [Wait], wake-up: possible once a release is available; the waiter
    re-reads the state and panics unless it is zero ("WaitGroup is reused
    before previous Wait has returned"): result [Some None]. *)
Definition Wait_wake (wg : WaitGroup) : option (option WaitGroup) :=
  match sema wg with
  | O => None
  | S n =>
      if (counter wg =? 0) && (waiters wg =? 0)%nat
      then Some (Some (mk (counter wg) (waiters wg) n))
      else Some None
  end.

End sync.

(** ** The group *)

(** [Task func() error] is modelled by the value it returns, a
    [CoordinatedTask func(ctx) error] by its return value as a function of the
    context it is given.  When a task returns is decided by the schedule. *)
Definition Task : Type := error.
Definition CoordinatedTask : Type := context.cancelCtx -> error.

(** The fields of [Group].  [errOnce] is the done flag of the [sync.Once],
    [waitFunction] the cell of the [sync.OnceValue] (empty until [wait] has
    returned), and [cancelCause] is not a field of the model: it is the
    function below, bound to [ctx]. *)
Record Group : Type := mkGroup {
  wg : sync.WaitGroup;
  errOnce : bool;
  waitFunction : option error;
  ctxParent : context.cancelCtx;
  ctx : context.cancelCtx
}.

Definition set_wg (x : sync.WaitGroup) (g : Group) : Group :=
  mkGroup x (errOnce g) (waitFunction g) (ctxParent g) (ctx g).
Definition set_errOnce (x : bool) (g : Group) : Group :=
  mkGroup (wg g) x (waitFunction g) (ctxParent g) (ctx g).
Definition set_waitFunction (x : option error) (g : Group) : Group :=
  mkGroup (wg g) (errOnce g) x (ctxParent g) (ctx g).
Definition set_ctxParent (x : context.cancelCtx) (g : Group) : Group :=
  mkGroup (wg g) (errOnce g) (waitFunction g) x (ctx g).
Definition set_ctx (x : context.cancelCtx) (g : Group) : Group :=
  mkGroup (wg g) (errOnce g) (waitFunction g) (ctxParent g) x.

(** [g.ctx, g.cancelCause = context.WithCancelCause(ctx)] *)
Definition NewWithContext (parent : context.cancelCtx) : Group :=
  mkGroup sync.zero false None parent (context.WithCancelCause parent).

Definition New : Group := NewWithContext context.Background.

Definition cancelCause (cs : error) (g : Group) : Group :=
  set_ctx (context.cancel Canceled cs (ctx g)) g.

(** [g.wg.Done()], that is [Add(-1)]; [None] is a panic. *)
Definition done (g : Group) : option Group :=
  match sync.Add (-1) (wg g) with
  | Some x => Some (set_wg x g)
  | None => None
  end.

(** [g.errOnce.Do(func() { g.cancelCause(err) })].  A [Do] that arrives while
    another runs waits for it, so the call is one step. *)
Definition errored (e : error_value) (g : Group) : Group :=
  if errOnce g then g else set_errOnce true (cancelCause (Some e) g).

Definition Cancel (g : Group) : Group := errored ErrorGroupCanceled g.

(** [g.Wait()] is [g.waitFunction()]: once [wait] has returned, the stored
    value; before that the call runs [wait] or blocks on the one that does. *)
Definition Wait (g : Group) : option error := waitFunction g.

(** The parent context is cancelled with error [e] and cause [cs]; the
    cancellation reaches the group's own context. *)
Definition parentCancel (e : error_value) (cs : error) (g : Group) : Group :=
  let p := context.cancel e cs (ctxParent g) in
  set_ctx (context.propagateCancel p (ctx g)) (set_ctxParent p g).

(** ** Goroutines and the interleaving semantics *)

(** A goroutine started by [Go] or [Co]: inside the task, then at the
    deferred [g.done()], then gone. *)
Inductive goroutine : Type :=
  | RunTask (t : Task)             (* Go: inside [t()] *)
  | RunCo (t : CoordinatedTask)    (* Co: inside [t(g.ctx)] *)
  | Deferred                       (* the task has returned; [defer g.done()] is next *)
  | Exited.

(** Where the one evaluation of [wait(g)] stands. *)
Inductive coordinatorPC : Type :=
  | NotCalled     (* [g.waitFunction] has never been called *)
  | AtSelect      (* the watcher is spawned; blocked in [select] *)
  | CaseDone      (* took [case <-g.ctx.Done()]; [g.errored(...)] is next *)
  | AtReturn      (* [return context.Cause(g.ctx)] is next *)
  | Returned.

(** Where the goroutine [go func() { g.wg.Wait(); ch <- nothing{} }()] stands. *)
Inductive watcherPC : Type :=
  | NotSpawned
  | AtWgWait      (* about to enter [g.wg.Wait()] *)
  | Parked        (* registered as a waiter of the WaitGroup *)
  | AtSend        (* blocked in [ch <- nothing{}] *)
  | Sent.

Record World : Type := mkWorld {
  grp : Group;
  pool : list goroutine;         (* the goroutines of Go / Co, in spawn order *)
  coordinator : coordinatorPC;
  watcher : watcherPC;
  panicked : bool                (* an unrecovered panic has ended the process *)
}.

Definition start (parent : context.cancelCtx) : World :=
  mkWorld (NewWithContext parent) [] NotCalled NotSpawned false.

Definition with_grp (g : Group) (w : World) : World :=
  mkWorld g (pool w) (coordinator w) (watcher w) (panicked w).
Definition with_pool (p : list goroutine) (w : World) : World :=
  mkWorld (grp w) p (coordinator w) (watcher w) (panicked w).
Definition with_coordinator (c : coordinatorPC) (w : World) : World :=
  mkWorld (grp w) (pool w) c (watcher w) (panicked w).
Definition with_watcher (c : watcherPC) (w : World) : World :=
  mkWorld (grp w) (pool w) (coordinator w) c (panicked w).
Definition crash (w : World) : World :=
  mkWorld (grp w) (pool w) (coordinator w) (watcher w) true.

(** [g.wg.Add(1)] and [go func() {...}()] with the goroutine body [r]. *)
Definition spawn (r : goroutine) (w : World) : World :=
  match sync.Add 1 (wg (grp w)) with
  | Some x => with_pool (pool w ++ [r]) (with_grp (set_wg x (grp w)) w)
  | None => crash w
  end.

Definition Go (t : Task) (w : World) : World := spawn (RunTask t) w.
Definition Co (t : CoordinatedTask) (w : World) : World := spawn (RunCo t) w.

(** [if err := t(); err != nil { g.errored(err) }] of goroutine [i]. *)
Definition report (r : error) (g : Group) : Group :=
  match r with
  | Some e => errored e g
  | None => g
  end.

Definition task_return (i : nat) (w : World) : option World :=
  match pool w !! i with
  | Some (RunTask t) =>
      Some (with_pool (<[i:=Deferred]> (pool w)) (with_grp (report t (grp w)) w))
  | Some (RunCo t) =>
      Some (with_pool (<[i:=Deferred]> (pool w))
              (with_grp (report (t (ctx (grp w))) (grp w)) w))
  | _ => None
  end.

(** [defer g.done()] of goroutine [i]. *)
Definition task_done (i : nat) (w : World) : option World :=
  match pool w !! i with
  | Some Deferred =>
      match done (grp w) with
      | Some g => Some (with_pool (<[i:=Exited]> (pool w)) (with_grp g w))
      | None => Some (crash w)
      end
  | _ => None
  end.

(** The labels of the atomic steps. *)
Inductive event : Type :=
  | CallGo (t : Task)                          (* g.Go(t) *)
  | CallCo (t : CoordinatedTask)               (* g.Co(t) *)
  | CallCancel                                 (* g.Cancel() *)
  | ParentCancel (e : error_value) (cs : error)  (* the parent context is cancelled *)
  | TaskReturn (i : nat)
  | TaskDone (i : nat)
  | WaitEnter      (* the first g.Wait(): OnceValue calls wait(g), up to the select *)
  | WatcherLoad    (* watcher: g.wg.Wait() reads the counter *)
  | WatcherWake    (* watcher: g.wg.Wait() is woken *)
  | SelectDone     (* select: case <-g.ctx.Done() *)
  | SelectCh       (* select: case <-ch, meeting the watcher's send *)
  | WaitErrored    (* g.errored(ErrorParentContextCanceled) *)
  | WaitReturn     (* return context.Cause(g.ctx), stored by OnceValue *)
  | CallWait (v : error).                      (* a call of g.Wait() returns v *)

(** The watcher goroutine of [wait]. *)
Definition watch (ev : event) (w : World) : option World :=
  match ev, watcher w with
  | WatcherLoad, AtWgWait =>
      match sync.Wait_enter (wg (grp w)) with
      | inl x => Some (with_watcher AtSend (with_grp (set_wg x (grp w)) w))
      | inr x => Some (with_watcher Parked (with_grp (set_wg x (grp w)) w))
      end
  | WatcherWake, Parked =>
      match sync.Wait_wake (wg (grp w)) with
      | Some (Some x) => Some (with_watcher AtSend (with_grp (set_wg x (grp w)) w))
      | Some None => Some (crash w)
      | None => None
      end
  | _, _ => None
  end.

(** [wait(g)], one statement per step:
<<
      ch := make(chan nothing)
      go func() { g.wg.Wait(); ch <- nothing{} }()
      select {
      case <-g.ctx.Done():
              g.errored(ErrorParentContextCanceled)
      case <-ch:
      }
      return context.Cause(g.ctx)
>>
    The value returned is stored in [waitFunction] by the [sync.OnceValue]. *)
Definition wait (ev : event) (w : World) : option World :=
  match ev, coordinator w with
  | WaitEnter, NotCalled =>
      Some (with_watcher AtWgWait (with_coordinator AtSelect w))
  | SelectDone, AtSelect =>
      if context.Done (ctx (grp w)) then Some (with_coordinator CaseDone w) else None
  | SelectCh, AtSelect =>
      match watcher w with
      | AtSend => Some (with_watcher Sent (with_coordinator AtReturn w))
      | _ => None
      end
  | WaitErrored, CaseDone =>
      Some (with_coordinator AtReturn
              (with_grp (errored ErrorParentContextCanceled (grp w)) w))
  | WaitReturn, AtReturn =>
      Some (with_coordinator Returned
              (with_grp (set_waitFunction (Some (context.Cause (ctx (grp w)))) (grp w)) w))
  | _, _ => None
  end.

(** One atomic step; [None] when the step is not enabled.  Nothing runs
    once the process has panicked. *)
Definition step (ev : event) (w : World) : option World :=
  if panicked w then None else
  match ev with
  | CallGo t => Some (Go t w)
  | CallCo t => Some (Co t w)
  | CallCancel => Some (with_grp (Cancel (grp w)) w)
  | ParentCancel e cs => Some (with_grp (parentCancel e cs (grp w)) w)
  | TaskReturn i => task_return i w
  | TaskDone i => task_done i w
  | WatcherLoad | WatcherWake => watch ev w
  | WaitEnter | SelectDone | SelectCh | WaitErrored | WaitReturn => wait ev w
  | CallWait v => if decide (Wait (grp w) = Some v) then Some w else None
  end.

(** A schedule is a list of labels. *)
Fixpoint run (tr : list event) (w : World) : option World :=
  match tr with
  | [] => Some w
  | ev :: tr' =>
      match step ev w with
      | Some w' => run tr' w'
      | None => None
      end
  end.

(** ** Schedules under a side condition *)

(** [admits ok tr w]: along the schedule [tr] from [w], every step is taken
    in a state in which [ok] allows its label. *)
Fixpoint admits (ok : World -> event -> bool) (tr : list event) (w : World) : bool :=
  match tr with
  | [] => true
  | ev :: tr' =>
      ok w ev &&
      match step ev w with
      | Some w' => admits ok tr' w'
      | None => true
      end
  end.

Definition is_schedule (ev : event) : bool :=
  match ev with CallGo _ | CallCo _ => true | _ => false end.

Definition is_cause (ev : event) : bool :=
  match ev with CallCancel | ParentCancel _ _ => true | _ => false end.

(** The steps of the goroutines the group itself runs: the tasks, the
    watcher and the evaluation of [wait] once it has been entered. *)
Definition internal (ev : event) : bool :=
  match ev with
  | TaskReturn _ | TaskDone _ | WatcherLoad | WatcherWake
  | SelectDone | SelectCh | WaitErrored | WaitReturn => true
  | _ => false
  end.

(** The counter has drained to zero and released the parked watcher, which
    has not resumed yet. *)
Definition draining (w : World) : bool :=
  match watcher w with
  | Parked => sync.counter (wg (grp w)) =? 0
  | _ => false
  end.

(** No unit of work is scheduled while the watcher is being released: the
    contract of [sync.WaitGroup] ("calls with a positive delta that occur
    when the counter is zero must happen before a Wait"). *)
Definition no_reuse (w : World) (ev : event) : bool :=
  negb (is_schedule ev && draining w).

(** Uncoordinated tasks that succeed, all scheduled before [Wait] is first
    called; no [Cancel], no cancellation of the parent. *)
Definition calm (w : World) (ev : event) : bool :=
  match ev with
  | CallGo None =>
      match coordinator w with NotCalled => true | _ => false end
  | CallGo (Some _) | CallCo _ | CallCancel | ParentCancel _ _ => false
  | _ => true
  end.

(** Nothing is scheduled and nothing is cancelled. *)
Definition idle (w : World) (ev : event) : bool :=
  negb (is_schedule ev) && negb (is_cause ev).

(** Goroutine [i] is inside a task that is about to return the error [e]. *)
Definition reports (w : World) (i : nat) (e : error_value) : Prop :=
  match pool w !! i with
  | Some (RunTask t) => t = Some e
  | Some (RunCo t) => t (ctx (grp w)) = Some e
  | _ => False
  end.

(** The work that is still outstanding in the pool. *)
Definition unfinished (r : goroutine) : Z :=
  match r with Exited => 0 | _ => 1 end.

Fixpoint outstanding (p : list goroutine) : Z :=
  match p with
  | [] => 0
  | r :: p' => unfinished r + outstanding p'
  end.

(** How many steps of its own the group still has to take. *)
Definition task_fuel (r : goroutine) : nat :=
  match r with RunTask _ | RunCo _ => 2 | Deferred => 1 | Exited => 0 end.

Definition pool_fuel (p : list goroutine) : nat :=
  foldr (fun r n => task_fuel r + n)%nat O p.

Definition watcher_fuel (c : watcherPC) : nat :=
  match c with NotSpawned | AtWgWait => 2 | Parked => 1 | AtSend | Sent => 0 end.

Definition coordinator_fuel (c : coordinatorPC) : nat :=
  match c with
  | NotCalled | AtSelect => 3 | CaseDone => 2 | AtReturn => 1 | Returned => 0
  end.

Definition fuel (w : World) : nat :=
  if panicked w then O
  else S (pool_fuel (pool w) + watcher_fuel (watcher w)
          + coordinator_fuel (coordinator w))%nat.

(** How far the evaluation of [wait] has come. *)
Definition stage (c : coordinatorPC) : nat :=
  match c with
  | NotCalled => 0 | AtSelect => 1 | CaseDone => 2 | AtReturn => 3 | Returned => 4
  end.

(** The steps [wait(g)] itself has left when its context is done. *)
Definition finish_wait (w : World) : list event :=
  match coordinator w with
  | NotCalled => [WaitEnter; SelectDone; WaitErrored; WaitReturn]
  | AtSelect => [SelectDone; WaitErrored; WaitReturn]
  | CaseDone => [WaitErrored; WaitReturn]
  | AtReturn => [WaitReturn]
  | Returned => []
  end.

(** How often a kind of step occurs in a schedule. *)
Fixpoint occurrences (f : event -> bool) (tr : list event) : nat :=
  match tr with
  | [] => O
  | ev :: tr' => ((if f ev then 1 else 0) + occurrences f tr')%nat
  end.

Definition is_WaitEnter (ev : event) : bool :=
  match ev with WaitEnter => true | _ => false end.

Definition is_WaitReturn (ev : event) : bool :=
  match ev with WaitReturn => true | _ => false end.

(** The values the calls of [Wait] in a schedule have returned. *)
Fixpoint observed (tr : list event) : list error :=
  match tr with
  | [] => []
  | CallWait v :: tr' => v :: observed tr'
  | _ :: tr' => observed tr'
  end.

(** The state a schedule leads to from a fresh group (the fresh group
    itself where the schedule cannot run). *)
Definition after (tr : list event) (parent : context.cancelCtx) : World :=
  default (start parent) (run tr (start parent)).

(** A parent made by [context.WithCancel] that has been cancelled. *)
Definition cancelled_parent : context.cancelCtx :=
  context.cancel Canceled None context.Background.

(** Example schedules. *)

(** One task, a Wait that sees it through, a late Cancel, Wait again. *)
Definition wait_twice : list event :=
  [CallGo None; WaitEnter; WatcherLoad; TaskReturn 0; TaskDone 0; WatcherWake;
   SelectCh; WaitReturn; CallWait None; CallCancel; CallWait None].

(** A task fails, then Cancel, then the parent is cancelled. *)
Definition three_causes : list event :=
  [CallGo (Some (errorString 7)); TaskReturn 0].

Definition three_causes_later : list event :=
  [CallCancel; ParentCancel Canceled None; TaskDone 0].

(** A coordinated task is waiting for its context. *)
Definition one_coordinated : list event :=
  [CallCo (fun c => context.Cause c); WaitEnter; WatcherLoad].

(** The same, and the group is cancelled. *)
Definition cancelled_while_waiting : list event :=
  one_coordinated ++ [CallCancel].

(** A task fails while Wait is waiting; Wait is called twice, with a Cancel
    between the two calls. *)
Definition failed_then_waited : list event :=
  [CallGo (Some (errorString 2)); WaitEnter; WatcherLoad; TaskReturn 0;
   SelectDone; WaitErrored; WaitReturn; CallWait (Some (errorString 2));
   CallCancel; TaskDone 0; CallWait (Some (errorString 2))].

(** A coordinated task is about to fail and an uncoordinated one fails
    later, while Wait is waiting. *)
Definition first_of_two : list event :=
  [CallCo (fun _ => Some (errorString 1)); CallGo (Some (errorString 2));
   WaitEnter; WatcherLoad].

(** The second task fails, both run their [g.done()], and the select of
    [wait] takes the watcher's send. *)
Definition first_of_two_rest : list event :=
  [TaskReturn 1; TaskDone 0; TaskDone 1; WatcherWake; SelectCh; WaitReturn;
   CallWait (Some (errorString 1))].

(** Two tasks; the first is about to fail, the second fails later. *)
Definition two_failing : list event :=
  [CallGo (Some (errorString 1)); CallGo (Some (errorString 2)); WaitEnter].


(** The watcher is released by the last task and a new task is scheduled
    before it has resumed. *)
Definition reuse : list event :=
  [CallGo None; WaitEnter; WatcherLoad; TaskReturn 0; TaskDone 0;
   CallGo None; WatcherWake].

(** The same, with the new task scheduled after the watcher has resumed. *)
Definition no_reuse_example : list event :=
  [CallGo None; WaitEnter; WatcherLoad; TaskReturn 0; TaskDone 0;
   WatcherWake; CallGo None; SelectCh; WaitReturn; CallWait None].

(** The parent of a group with a running coordinated task is cancelled. *)
Definition parent_cancelled_later : list event :=
  [CallCo (fun _ => None); ParentCancel Canceled None; WaitEnter; SelectDone;
   WaitErrored; WaitReturn; CallWait (Some Canceled)].

(** The two ways through the select of [wait]. *)
Definition by_done : list event := [WaitEnter; SelectDone; WaitErrored; WaitReturn].
Definition by_ch : list event := [WaitEnter; WatcherLoad; SelectCh; WaitReturn].

(** ** Invariants of the reachable states *)

(** The watcher exists and has not handed over its send. *)
Definition watching (c : watcherPC) : Prop :=
  match c with AtWgWait | Parked | AtSend => True | _ => False end.

(** What every reachable state satisfies, under any schedule. *)
Record consistent (w : World) : Prop := mkConsistent {
  (* the counter counts the goroutines that have not run [g.done()] *)
  c_count : sync.counter (wg (grp w)) = outstanding (pool w);
  (* only the watcher waits on the WaitGroup *)
  c_wg :
    match watcher w with
    | Parked =>
        (sync.waiters (wg (grp w)) = 1%nat /\ sync.sema (wg (grp w)) = 0%nat
         /\ 0 < sync.counter (wg (grp w)))
        \/ (sync.waiters (wg (grp w)) = 0%nat /\ sync.sema (wg (grp w)) = 1%nat)
    | _ => sync.waiters (wg (grp w)) = 0%nat /\ sync.sema (wg (grp w)) = 0%nat
    end;
  (* the Once has run only by cancelling the context *)
  c_once : errOnce (grp w) = true -> context.Done (ctx (grp w)) = true;
  (* a context has a cause exactly when it is done *)
  c_ctx : context.err (ctx (grp w)) = None <-> context.cause (ctx (grp w)) = None;
  (* the program counters of [wait], its watcher and the OnceValue cell *)
  c_pc :
    match coordinator w with
    | NotCalled => watcher w = NotSpawned /\ Wait (grp w) = None
    | AtSelect => watching (watcher w) /\ Wait (grp w) = None
    | CaseDone =>
        watching (watcher w) /\ Wait (grp w) = None
        /\ context.Done (ctx (grp w)) = true
    | AtReturn =>
        Wait (grp w) = None
        /\ ((watching (watcher w) /\ context.Done (ctx (grp w)) = true)
            \/ watcher w = Sent)
    | Returned =>
        watcher w <> NotSpawned
        /\ exists v, Wait (grp w) = Some v
             /\ match v with
                | Some c => context.Cause (ctx (grp w)) = Some c
                | None => watcher w = Sent
                end
    end
}.

(** What holds in addition while no unit of work is scheduled during a
    release of the watcher: no panic, and a released watcher finds the
    counter at zero. *)
Record sound (w : World) : Prop := mkSound {
  s_alive : panicked w = false;
  s_released :
    watcher w = Parked -> sync.sema (wg (grp w)) = 1%nat ->
    sync.counter (wg (grp w)) = 0
}.

(** A goroutine of the pool that cannot report an error. *)
Definition succeeds (r : goroutine) : Prop :=
  match r with RunTask (Some _) | RunCo _ => False | _ => True end.

(** What holds in addition along a [calm] schedule. *)
Record quiet (w : World) : Prop := mkQuiet {
  q_live : context.Done (ctx (grp w)) = false;
  q_pool : Forall succeeds (pool w);
  q_passed :
    match watcher w with
    | AtSend | Sent => sync.counter (wg (grp w)) = 0
    | _ => True
    end
}.

(** ** Offers to the latch, and further side conditions *)

(** What goroutine [i] returns if its task returns in this state. *)
Definition returns (w : World) (i : nat) : error :=
  match pool w !! i with
  | Some (RunTask t) => t
  | Some (RunCo t) => t (ctx (grp w))
  | _ => None
  end.

(** The error a step offers to the latch: [Cancel] its sentinel, the
    cancellation of the parent the parent's cause, the return of a task the
    error of the task.  The [errored] inside [wait] is left out on purpose. *)
Definition offers (w : World) (ev : event) : error :=
  match ev with
  | CallCancel => Some ErrorGroupCanceled
  | ParentCancel e cs => Some (default e cs)
  | TaskReturn i => returns w i
  | _ => None
  end.

(** Every error that is offered satisfies [P]. *)
Definition offers_only (P : error_value -> bool) (w : World) (ev : event) : bool :=
  match offers w ev with
  | Some e => P e
  | None => true
  end.

Definition not_sentinel (e : error_value) : bool :=
  negb (bool_decide (e = ErrorParentContextCanceled)).

Definition no_error (e : error_value) : bool := false.

Definition is_ErrorGroupCanceled (e : error_value) : bool :=
  bool_decide (e = ErrorGroupCanceled).

(** The task of a goroutine has not returned yet. *)
Definition running (r : goroutine) : Prop :=
  match r with RunTask _ | RunCo _ => True | _ => False end.

(** Goroutine [i] returns only once the context is done, as a coordinated
    task does that waits in [<-ctx.Done()], or else with an error. *)
Definition honours (i : nat) (w : World) (ev : event) : bool :=
  match ev with
  | TaskReturn j =>
      if decide (j = i)
      then context.Done (ctx (grp w)) || bool_decide (returns w i <> None)
      else true
  | _ => true
  end.

(** The cancellation of the parent has reached the group. *)
Definition linked (w : World) : Prop :=
  context.Done (ctxParent (grp w)) = true -> context.Done (ctx (grp w)) = true.

(** The watcher has found the counter at zero. *)
Definition passed (c : watcherPC) : Prop :=
  match c with AtSend | Sent => True | _ => False end.

(** The first [n] goroutines of the pool exist, and are gone once the
    watcher has passed. *)
Record completed (n : nat) (w : World) : Prop := mkCompleted {
  d_length : (n <= length (pool w))%nat;
  d_exited : passed (watcher w) ->
             forall i, (i < n)%nat -> pool w !! i = Some Exited
}.

(** Goroutine [i] is still inside its task [r] unless the context is
    done; the watcher passes, and [wait] returns, only with the context
    done. *)
Record held (i : nat) (r : goroutine) (w : World) : Prop := mkHeld {
  h_running : context.Done (ctx (grp w)) = true \/ pool w !! i = Some r;
  h_passed : passed (watcher w) -> context.Done (ctx (grp w)) = true;
  h_value : Wait (grp w) <> Some None
}.

(** [wait] has left its select by the [<-g.ctx.Done()] branch; nobody is
    left to receive from [ch]. *)
Definition abandoned (w : World) : Prop :=
  watching (watcher w)
  /\ match coordinator w with
     | CaseDone | AtReturn | Returned => True
     | _ => False
     end.

(** The [wait] of the earlier version of the file, which has no statement
    in the [<-g.ctx.Done()] case:
<<
      select {
      case <-g.ctx.Done():
      case <-ch:
      }
      return context.Cause(g.ctx)
>>
    The program counter [CaseDone] is kept, with an empty step. *)
Definition wait_v1 (ev : event) (w : World) : option World :=
  match ev, coordinator w with
  | WaitErrored, CaseDone => Some (with_coordinator AtReturn w)
  | _, _ => wait ev w
  end.

Definition step_v1 (ev : event) (w : World) : option World :=
  if panicked w then None else
  match ev with
  | WaitEnter | SelectDone | SelectCh | WaitErrored | WaitReturn => wait_v1 ev w
  | _ => step ev w
  end.

Fixpoint run_v1 (tr : list event) (w : World) : option World :=
  match tr with
  | [] => Some w
  | ev :: tr' =>
      match step_v1 ev w with
      | Some w' => run_v1 tr' w'
      | None => None
      end
  end.

(** Two states that differ at most in the flag of the Once, and only when
    the context is done. *)
Definition same_but_once (w w1 : World) : Prop :=
  wg (grp w) = wg (grp w1) /\ ctx (grp w) = ctx (grp w1)
  /\ ctxParent (grp w) = ctxParent (grp w1) /\ Wait (grp w) = Wait (grp w1)
  /\ pool w = pool w1 /\ coordinator w = coordinator w1
  /\ watcher w = watcher w1 /\ panicked w = panicked w1
  /\ (errOnce (grp w) = errOnce (grp w1)
      \/ context.Done (ctx (grp w)) = true).

(** More example schedules. *)

(** The program of [ExampleGroup_Co]: a coordinated task that waits for
    its context, a task that cancels the group and succeeds, Wait; here the
    select takes the watcher's send. *)
Definition example_Co : list event :=
  [CallCo (fun _ => None); CallGo None].

Definition example_Co_rest : list event :=
  [WaitEnter; WatcherLoad; CallCancel; TaskReturn 1; TaskDone 1;
   TaskReturn 0; TaskDone 0; WatcherWake; SelectCh; WaitReturn;
   CallWait (Some ErrorGroupCanceled)].

(** [by_done] once Wait has been entered. *)
Definition by_done_rest : list event := [SelectDone; WaitErrored; WaitReturn].

(** Coordinated and uncoordinated tasks that succeed, one of them
    scheduled after Wait has been called. *)
Definition mixed_success_rest : list event :=
  [WaitEnter; WatcherLoad; CallCo (fun _ => None);
   TaskReturn 0; TaskReturn 2; TaskDone 2; TaskReturn 1; TaskDone 0; TaskDone 1;
   WatcherWake; SelectCh; WaitReturn; CallWait None].

Definition mixed_success : list event := example_Co ++ mixed_success_rest.

(** The second of two tasks fails, after the first has finished and the
    group has been waited for; the select takes the watcher's send. *)
Definition late_failure : list event :=
  [CallGo None; CallGo (Some (errorString 5))].

Definition late_failure_rest : list event :=
  [WaitEnter; WatcherLoad; TaskReturn 0; TaskDone 0; TaskReturn 1; TaskDone 1;
   WatcherWake; SelectCh; WaitReturn; CallWait (Some (errorString 5))].

(** A task fails while Wait is waiting and the select takes
    [<-g.ctx.Done()]; then [wait] returns and the tasks finish. *)
Definition failing_pair : list event :=
  [CallGo (Some (errorString 3)); CallGo None; WaitEnter; WatcherLoad;
   TaskReturn 0; SelectDone].

Definition failing_pair_rest : list event :=
  [WaitErrored; WaitReturn; TaskReturn 1; TaskDone 1; TaskDone 0; WatcherWake].

(** ** Facts about the primitives *)

Section primitives.

Implicit Types (c : context.cancelCtx) (g : Group) (e : error_value) (cs : error).

Lemma cancel_Done e cs c : context.Done (context.cancel e cs c) = true.
Proof. unfold context.cancel, context.Done. by destruct (context.err c) eqn:E; simpl; rewrite ?E. Qed.

Lemma cancel_idle e cs c : context.Done c = true -> context.cancel e cs c = c.
Proof. unfold context.cancel, context.Done. by destruct (context.err c). Qed.

Lemma cancel_fresh e cs c :
  context.err c = None ->
  context.cancel e cs c = context.mk (Some e) (Some (default e cs)).
Proof. unfold context.cancel. by intros ->. Qed.

Lemma Done_false c : context.Done c = false <-> context.err c = None.
Proof. unfold context.Done. destruct (context.err c); split; congruence. Qed.

Lemma cancel_coherent e cs c :
  (context.err c = None <-> context.cause c = None) ->
  (context.err (context.cancel e cs c) = None
   <-> context.cause (context.cancel e cs c) = None).
Proof.
  unfold context.cancel. destruct (context.err c) eqn:E; simpl; intros H.
  - by rewrite E.
  - split; discriminate.
Qed.

Lemma propagate_idle p c :
  context.Done c = true -> context.propagateCancel p c = c.
Proof.
  unfold context.propagateCancel. destruct (context.err p); [|done].
  apply cancel_idle.
Qed.

Lemma propagate_coherent p c :
  (context.err c = None <-> context.cause c = None) ->
  (context.err (context.propagateCancel p c) = None
   <-> context.cause (context.propagateCancel p c) = None).
Proof.
  unfold context.propagateCancel. destruct (context.err p); [|done].
  apply cancel_coherent.
Qed.

Lemma errored_idle e g :
  context.Done (ctx g) = true -> ctx (errored e g) = ctx g.
Proof.
  intros H. unfold errored, cancelCause. destruct (errOnce g); [done|].
  simpl. by apply cancel_idle.
Qed.

Lemma errored_Done e g :
  (errOnce g = true -> context.Done (ctx g) = true) ->
  context.Done (ctx (errored e g)) = true.
Proof.
  intros H. unfold errored, cancelCause. destruct (errOnce g); [by apply H|].
  simpl. apply cancel_Done.
Qed.

Lemma errored_latch e g :
  errOnce g = false -> context.err (ctx g) = None ->
  ctx (errored e g) = context.mk (Some Canceled) (Some e).
Proof.
  intros H1 H2. unfold errored, cancelCause. rewrite H1. simpl.
  by rewrite cancel_fresh.
Qed.

Lemma errored_once e g :
  (errOnce g = true -> context.Done (ctx g) = true) ->
  errOnce (errored e g) = true -> context.Done (ctx (errored e g)) = true.
Proof. intros H _. by apply errored_Done. Qed.

Lemma errored_coherent e g :
  (context.err (ctx g) = None <-> context.cause (ctx g) = None) ->
  (context.err (ctx (errored e g)) = None
   <-> context.cause (ctx (errored e g)) = None).
Proof.
  unfold errored, cancelCause. destruct (errOnce g); [done|]. simpl.
  apply cancel_coherent.
Qed.

Lemma errored_wg e g : wg (errored e g) = wg g.
Proof. unfold errored. by destruct (errOnce g). Qed.

Lemma errored_Wait e g : Wait (errored e g) = Wait g.
Proof. unfold errored. by destruct (errOnce g). Qed.

Lemma report_wg r g : wg (report r g) = wg g.
Proof. destruct r; simpl; [apply errored_wg | done]. Qed.

Lemma report_Wait r g : Wait (report r g) = Wait g.
Proof. destruct r; simpl; [apply errored_Wait | done]. Qed.

Lemma report_idle r g :
  context.Done (ctx g) = true -> ctx (report r g) = ctx g.
Proof. destruct r; simpl; [apply errored_idle | done]. Qed.

Lemma report_once r g :
  (errOnce g = true -> context.Done (ctx g) = true) ->
  errOnce (report r g) = true -> context.Done (ctx (report r g)) = true.
Proof. destruct r; simpl; [apply errored_once | done]. Qed.

Lemma report_coherent r g :
  (context.err (ctx g) = None <-> context.cause (ctx g) = None) ->
  (context.err (ctx (report r g)) = None
   <-> context.cause (ctx (report r g)) = None).
Proof. destruct r; simpl; [apply errored_coherent | done]. Qed.

Lemma parentCancel_idle e cs g :
  context.Done (ctx g) = true -> ctx (parentCancel e cs g) = ctx g.
Proof. intros H. unfold parentCancel. simpl. by apply propagate_idle. Qed.

Lemma parentCancel_Done e cs g : context.Done (ctx (parentCancel e cs g)) = true.
Proof.
  unfold parentCancel, context.propagateCancel. simpl.
  pose proof (cancel_Done e cs (ctxParent g)) as H.
  unfold context.Done in H.
  destruct (context.err (context.cancel e cs (ctxParent g))); [|done].
  apply cancel_Done.
Qed.

End primitives.

Section pools.

Implicit Types (p : list goroutine) (r : goroutine).

Lemma unfinished_bounds r : 0 <= unfinished r <= 1.
Proof. destruct r; simpl; lia. Qed.

Lemma outstanding_nonneg p : 0 <= outstanding p.
Proof. induction p as [|r p IH]; simpl; [lia|]. pose proof (unfinished_bounds r). lia. Qed.

Lemma outstanding_app p q : outstanding (p ++ q) = outstanding p + outstanding q.
Proof. induction p as [|r p IH]; simpl; lia. Qed.

Lemma outstanding_insert p i r r' :
  p !! i = Some r ->
  outstanding (<[i:=r']> p) = outstanding p - unfinished r + unfinished r'.
Proof.
  revert i. induction p as [|a p IH]; intros [|i] H; simpl in *; try done.
  - injection H as ->. lia.
  - rewrite (IH _ H). lia.
Qed.

Lemma outstanding_lookup p i r : p !! i = Some r -> unfinished r <= outstanding p.
Proof.
  revert i. induction p as [|a p IH]; intros [|i] H; simpl in *; try done.
  - injection H as ->. pose proof (outstanding_nonneg p). lia.
  - pose proof (IH _ H). pose proof (unfinished_bounds a). lia.
Qed.

Lemma outstanding_zero p : outstanding p = 0 -> Forall (fun r => r = Exited) p.
Proof.
  induction p as [|a p IH]; simpl; intros H; [constructor|].
  pose proof (outstanding_nonneg p). pose proof (unfinished_bounds a).
  constructor; [destruct a; simpl in *; (done || lia) | apply IH; lia].
Qed.

Lemma outstanding_pos p :
  0 < outstanding p -> exists i r, p !! i = Some r /\ r <> Exited.
Proof.
  induction p as [|a p IH]; simpl; intros H; [lia|].
  destruct (decide (unfinished a = 0)) as [E|E].
  - destruct IH as (i & r & ? & ?); [lia|]. by exists (S i), r.
  - exists O, a. split; [done|]. intros ->. done.
Qed.


End pools.

Section waitgroup.

Implicit Types (x y : sync.WaitGroup).

Lemma Add_one x y :
  sync.Add 1 x = Some y ->
  sync.counter y = sync.counter x + 1
  /\ (0 < sync.counter y -> sync.waiters y = sync.waiters x /\ sync.sema y = sync.sema x).
Proof.
  unfold sync.Add. intros H. repeat case_match; simplify_eq/=; lia.
Qed.

Lemma Add_one_ok x :
  0 <= sync.counter x ->
  (sync.waiters x <> 0%nat -> 0 < sync.counter x) ->
  is_Some (sync.Add 1 x).
Proof.
  unfold sync.Add. intros H1 H2.
  destruct (sync.counter x + 1 <? 0) eqn:E1; [lia|].
  destruct (negb (sync.waiters x =? 0)%nat && (0 <? 1) && (sync.counter x + 1 =? 1)) eqn:E2.
  - apply andb_true_iff in E2 as [E2 E3]. apply andb_true_iff in E2 as [E2 _].
    apply negb_true_iff, Nat.eqb_neq in E2. lia.
  - by case_match.
Qed.

Lemma Add_minus x y :
  sync.Add (-1) x = Some y ->
  sync.counter y = sync.counter x - 1 /\ 0 <= sync.counter y
  /\ ((0 < sync.counter y \/ sync.waiters x = 0%nat)
      /\ sync.waiters y = sync.waiters x /\ sync.sema y = sync.sema x
      \/ sync.counter y = 0 /\ sync.waiters x <> 0%nat
         /\ sync.waiters y = 0%nat
         /\ sync.sema y = (sync.sema x + sync.waiters x)%nat).
Proof.
  unfold sync.Add. intros H.
  destruct (sync.counter x + -1 <? 0) eqn:E1; [done|].
  rewrite andb_false_r in H. simpl in H.
  destruct ((0 <? sync.counter x + -1) || (sync.waiters x =? 0)%nat) eqn:E2;
    simplify_eq/=.
  - apply orb_true_iff in E2 as [E2|E2]; [|apply Nat.eqb_eq in E2]; lia.
  - apply orb_false_iff in E2 as [E2 E3]. apply Nat.eqb_neq in E3. lia.
Qed.

Lemma Add_minus_ok x : 0 < sync.counter x -> is_Some (sync.Add (-1) x).
Proof.
  unfold sync.Add. intros H.
  destruct (sync.counter x + -1 <? 0) eqn:E1; [lia|].
  rewrite andb_false_r. simpl. by case_match.
Qed.

End waitgroup.

(** ** Every reachable state is consistent *)

Section invariants.

Implicit Types (w : World) (ev : event) (tr : list event).

(** Splits the clause on the program counters and closes its cases. *)
Ltac pc_cases :=
  simpl in *;
  repeat match goal with
    | H : _ /\ _ |- _ => destruct H
    | H : exists _, _ |- _ => destruct H
    | H : _ \/ _ |- _ => destruct H
    | H : watching _ |- _ => progress (simpl in H)
    | H : match ?v with Some _ => _ | None => _ end |- _ => destruct v
    end;
  simplify_eq; try done;
  try (split; [done|]; eexists; split; [eassumption|]; done);
  eauto 10.

Lemma consistent_start parent : consistent (start parent).
Proof.
  split; simpl; try done.
  - unfold context.WithCancelCause. by apply propagate_coherent.
Qed.

Lemma consistent_spawn r w :
  r <> Exited -> consistent w -> consistent (spawn r w).
Proof.
  intros Hr [Hc Hw Ho Hx Hp]. unfold spawn.
  destruct (sync.Add 1 (wg (grp w))) as [y|] eqn:E; [|by split].
  apply Add_one in E as [E1 E2].
  pose proof (outstanding_nonneg (pool w)).
  destruct E2 as [E2 E3]; [lia|].
  split; simpl; try done.
  - rewrite outstanding_app. simpl. destruct r; simpl; try done; lia.
  - rewrite E2, E3. destruct (watcher w); try done. lia.
Qed.

Lemma consistent_cause w g :
  consistent w ->
  wg g = wg (grp w) -> Wait g = Wait (grp w) ->
  (errOnce g = true -> context.Done (ctx g) = true) ->
  (context.err (ctx g) = None <-> context.cause (ctx g) = None) ->
  (context.Done (ctx (grp w)) = true -> ctx g = ctx (grp w)) ->
  consistent (with_grp g w).
Proof.
  intros [Hc Hw Ho Hx Hp] E1 E2 H1 H2 H3.
  assert (context.Done (ctx (grp w)) = true -> context.Done (ctx g) = true) as H4.
  { intros H. by rewrite (H3 H). }
  split; simpl; rewrite ?E1, ?E2; try done.
  destruct (coordinator w); try done.
  - destruct Hp as (? & ? & ?). auto.
  - destruct Hp as (? & [[? ?]|?]); auto.
  - destruct Hp as (Hs & v & Hv & Hcause). split; [done|]. exists v. split; [done|].
    destruct v as [c|]; [|done].
    rewrite H3; [done|]. unfold context.Cause in Hcause.
    destruct (context.Done (ctx (grp w))) eqn:E; [done|].
    apply Done_false in E. apply Hx in E. congruence.
Qed.

Lemma consistent_report r w :
  consistent w -> consistent (with_grp (report r (grp w)) w).
Proof.
  intros H. pose proof H as [Hc Hw Ho Hx Hp].
  apply consistent_cause; auto using report_wg, report_Wait, report_once,
    report_coherent, report_idle.
Qed.

Lemma consistent_pool p w :
  consistent w -> outstanding p = outstanding (pool w) ->
  consistent (with_pool p w).
Proof. intros [Hc Hw Ho Hx Hp] E. split; simpl; try done. by rewrite E. Qed.

Lemma consistent_task_return i w w' :
  consistent w -> task_return i w = Some w' -> consistent w'.
Proof.
  intros H. unfold task_return.
  destruct (pool w !! i) as [[t|t| |]|] eqn:E; intros; simplify_eq.
  - apply consistent_pool; [by apply consistent_report|]. simpl.
    rewrite (outstanding_insert _ _ _ _ E). simpl. lia.
  - apply consistent_pool; [by apply consistent_report|]. simpl.
    rewrite (outstanding_insert _ _ _ _ E). simpl. lia.
Qed.

Lemma consistent_task_done i w w' :
  consistent w -> task_done i w = Some w' -> consistent w'.
Proof.
  intros [Hc Hw Ho Hx Hp]. unfold task_done, done.
  destruct (pool w !! i) as [[t|t| |]|] eqn:E; try done.
  destruct (sync.Add (-1) (wg (grp w))) as [y|] eqn:EA; intros; simplify_eq;
    [|by split].
  apply Add_minus in EA as (E1 & E2 & E3).
  split; simpl; try done.
  - rewrite (outstanding_insert _ _ _ _ E). simpl. lia.
  - destruct (watcher w); lia.
Qed.

Lemma consistent_watch ev w w' :
  consistent w -> watch ev w = Some w' -> consistent w'.
Proof.
  intros [Hc Hw Ho Hx Hp]. unfold watch.
  pose proof (outstanding_nonneg (pool w)) as Hn.
  destruct ev; try done; destruct (watcher w) eqn:EW; try done.
  - unfold sync.Wait_enter. destruct (sync.counter (wg (grp w)) =? 0) eqn:E0;
      intros; simplify_eq; split; simpl; try done.
    + destruct (coordinator w); pc_cases.
    + lia.
    + destruct (coordinator w); pc_cases.
  - unfold sync.Wait_wake. destruct (sync.sema (wg (grp w))) as [|n] eqn:ES; [done|].
    destruct ((sync.counter (wg (grp w)) =? 0) && (sync.waiters (wg (grp w)) =? 0)%nat);
      intros; simplify_eq; [|split; simpl; rewrite ?EW, ?ES; try done].
    split; simpl; try done.
    + lia.
    + destruct (coordinator w); pc_cases.
Qed.

Lemma consistent_wait ev w w' :
  consistent w -> wait ev w = Some w' -> consistent w'.
Proof.
  intros H. pose proof H as [Hc Hw Ho Hx Hp]. unfold wait.
  destruct ev; try done; destruct (coordinator w) eqn:EC; try done.
  - (* WaitEnter *)
    intros; simplify_eq. destruct Hp as [Hp1 Hp2]. rewrite Hp1 in Hw.
    split; simpl; done.
  - (* SelectDone *)
    destruct (context.Done (ctx (grp w))) eqn:ED; intros; simplify_eq.
    split; simpl; try done. by destruct Hp.
  - (* SelectCh *)
    destruct (watcher w) eqn:EW; intros; simplify_eq.
    split; simpl; try done. destruct Hp. auto.
  - (* WaitErrored *)
    intros; simplify_eq. destruct Hp as (Hp1 & Hp2 & Hp3).
    pose proof (consistent_report (Some ErrorParentContextCanceled) w H)
      as [Hc' Hw' Ho' Hx' _].
    split; simpl in *; try done.
    rewrite errored_Wait, errored_idle by done. auto.
  - (* WaitReturn *)
    intros; simplify_eq. destruct Hp as (Hp1 & Hp2).
    split; simpl; try done. split.
    + destruct Hp2 as [[Hp2 _]|Hp2]; [by destruct (watcher w)|by rewrite Hp2].
    + eexists. split; [done|]. unfold context.Cause.
      destruct (context.cause (ctx (grp w))) eqn:E; [done|].
      destruct Hp2 as [[_ Hp2]|Hp2]; [|done].
      pose proof (proj2 Hx eq_refl) as E'. apply Done_false in E'. congruence.
Qed.

Lemma consistent_step ev w w' :
  consistent w -> step ev w = Some w' -> consistent w'.
Proof.
  intros H. unfold step. destruct (panicked w); [done|].
  destruct ev; intros E; simplify_eq;
    eauto using consistent_task_return, consistent_task_done,
      consistent_watch, consistent_wait.
  - by apply consistent_spawn.
  - by apply consistent_spawn.
  - by apply (consistent_report (Some ErrorGroupCanceled)).
  - pose proof H as [Hc Hw Ho Hx Hp].
    apply consistent_cause; try done.
    + intros _. apply parentCancel_Done.
    + unfold parentCancel. simpl. by apply propagate_coherent.
    + apply parentCancel_idle.
  - by case_decide; simplify_eq.
Qed.

Lemma consistent_run tr w w' :
  consistent w -> run tr w = Some w' -> consistent w'.
Proof.
  revert w. induction tr as [|ev tr IH]; simpl; intros w H E; [by simplify_eq|].
  destruct (step ev w) as [w1|] eqn:E1; [|done].
  eauto using consistent_step.
Qed.

(** An invariant of the steps a side condition allows holds along every
    schedule the side condition admits. *)
Lemma run_invariant (ok : World -> event -> bool) (P : World -> Prop) :
  (forall w ev w', consistent w -> P w -> ok w ev = true ->
                   step ev w = Some w' -> P w') ->
  forall tr w w', consistent w -> P w -> admits ok tr w = true ->
                  run tr w = Some w' -> P w'.
Proof.
  intros Hstep tr. induction tr as [|ev tr IH]; simpl; intros w w' Hc HP Hok E;
    [by simplify_eq|].
  apply andb_true_iff in Hok as [H1 H2].
  destruct (step ev w) as [w1|] eqn:E1; [|done].
  eauto using consistent_step.
Qed.

End invariants.

(** ** No panic while the WaitGroup is not reused *)

Section soundness.

Implicit Types (w : World) (ev : event) (tr : list event).

Lemma sound_start parent : sound (start parent).
Proof. by split. Qed.

Lemma spawn_alive r w :
  consistent w -> panicked w = false -> panicked (spawn r w) = false.
Proof.
  intros [Hc Hw Ho Hx Hp] Ha. unfold spawn.
  destruct (Add_one_ok (wg (grp w))) as [y ->]; [| |done].
  - rewrite Hc. apply outstanding_nonneg.
  - destruct (watcher w); lia.
Qed.

Lemma sound_spawn r w :
  consistent w -> sound w -> draining w = false -> sound (spawn r w).
Proof.
  intros Hcons [Ha Hr] Hd. split; [by apply spawn_alive|].
  destruct Hcons as [Hc Hw Ho Hx Hp]. unfold spawn, draining in *.
  destruct (sync.Add 1 (wg (grp w))) as [y|] eqn:E; [|done]. simpl.
  apply Add_one in E as [E1 E2]. pose proof (outstanding_nonneg (pool w)).
  destruct E2 as [E2 E3]; [lia|]. intros EW ES. rewrite EW in *.
  rewrite E3 in ES. specialize (Hr eq_refl ES). lia.
Qed.

Lemma task_done_alive i w w' :
  consistent w -> panicked w = false -> task_done i w = Some w' ->
  panicked w' = false.
Proof.
  intros [Hc Hw Ho Hx Hp] Ha. unfold task_done, done.
  destruct (pool w !! i) as [[t|t| |]|] eqn:E; try done.
  pose proof (outstanding_lookup _ _ _ E) as Hl. simpl in Hl.
  destruct (Add_minus_ok (wg (grp w))) as [y ->]; [lia|].
  by intros; simplify_eq.
Qed.

Lemma sound_step ev w w' :
  consistent w -> sound w -> no_reuse w ev = true ->
  step ev w = Some w' -> sound w'.
Proof.
  intros Hcons Hs Hok. pose proof Hs as [Ha Hr].
  pose proof Hcons as [Hc Hw Ho Hx Hp].
  unfold step, no_reuse in *. rewrite Ha.
  destruct ev; simpl in Hok; intros E; simplify_eq.
  - apply sound_spawn; try done. by apply negb_true_iff.
  - apply sound_spawn; try done. by apply negb_true_iff.
  - split; simpl; [done|]. unfold Cancel. by rewrite errored_wg.
  - by split.
  - unfold task_return in E.
    destruct (pool w !! i) as [[t|t| |]|]; simplify_eq;
      (split; simpl; [done|]; by rewrite report_wg).
  - split; [by eapply task_done_alive|].
    unfold task_done, done in E.
    destruct (pool w !! i) as [[t|t| |]|] eqn:EP; try done.
    pose proof (outstanding_lookup _ _ _ EP) as Hl. simpl in Hl.
    destruct (sync.Add (-1) (wg (grp w))) as [y|] eqn:EA; simplify_eq; simpl.
    + apply Add_minus in EA as (E1 & E2 & E3). intros EW ES.
      destruct E3 as [(E3 & E4 & E5)|(E3 & _)]; [|done].
      rewrite E5 in ES. specialize (Hr EW ES). lia.
    + intros EW ES. specialize (Hr EW ES). lia.
  - unfold wait in E. destruct (coordinator w); simplify_eq. by split.
  - unfold watch in E. destruct (watcher w) eqn:EW; try done.
    unfold sync.Wait_enter in E.
    destruct (sync.counter (wg (grp w)) =? 0); simpl in E; simplify_eq;
      (split; simpl; [done|]); [done|].
    intros _ ES. lia.
  - unfold watch in E. destruct (watcher w) eqn:EW; try done.
    unfold sync.Wait_wake in E.
    destruct (sync.sema (wg (grp w))) as [|n] eqn:ES; [done|].
    assert (sync.waiters (wg (grp w)) = 0%nat /\ n = O) as [E0 ->] by lia.
    rewrite (Hr eq_refl eq_refl), E0 in E. simpl in E. simplify_eq.
    by split.
  - unfold wait in E. destruct (coordinator w); try done.
    destruct (context.Done (ctx (grp w))); simplify_eq. by split.
  - unfold wait in E. destruct (coordinator w); try done.
    destruct (watcher w); simplify_eq. by split.
  - unfold wait in E. destruct (coordinator w); simplify_eq.
    split; simpl; [done|]. by rewrite errored_wg.
  - unfold wait in E. destruct (coordinator w); simplify_eq. by split.
  - by case_decide; simplify_eq.
Qed.

Lemma sound_run tr w w' :
  consistent w -> sound w -> admits no_reuse tr w = true ->
  run tr w = Some w' -> sound w'.
Proof. apply (run_invariant no_reuse sound). eauto using sound_step. Qed.

End soundness.

(** ** The latch and the cell of the OnceValue *)

Section latching.

Implicit Types (w : World) (ev : event) (tr : list event).

Lemma spawn_grp r w :
  ctx (grp (spawn r w)) = ctx (grp w)
  /\ Wait (grp (spawn r w)) = Wait (grp w)
  /\ errOnce (grp (spawn r w)) = errOnce (grp w)
  /\ coordinator (spawn r w) = coordinator w
  /\ watcher (spawn r w) = watcher w.
Proof. unfold spawn. by destruct (sync.Add 1 (wg (grp w))). Qed.

(** A context that is done is never written again. *)
Lemma latched_step ev w w' :
  context.Done (ctx (grp w)) = true -> step ev w = Some w' ->
  ctx (grp w') = ctx (grp w).
Proof.
  intros H. unfold step. destruct (panicked w); [done|].
  destruct ev; intros E; simplify_eq; simpl.
  - apply spawn_grp.
  - apply spawn_grp.
  - by apply errored_idle.
  - by apply parentCancel_idle.
  - unfold task_return in E.
    destruct (pool w !! i) as [[t|t| |]|]; simplify_eq; simpl;
      by apply report_idle.
  - unfold task_done, done in E.
    destruct (pool w !! i) as [[t|t| |]|]; try done.
    by destruct (sync.Add (-1) (wg (grp w))); simplify_eq.
  - unfold wait in E. by destruct (coordinator w); simplify_eq.
  - unfold watch in E. destruct (watcher w); try done.
    by destruct (sync.Wait_enter (wg (grp w))); simplify_eq.
  - unfold watch in E. destruct (watcher w); try done.
    by destruct (sync.Wait_wake (wg (grp w))) as [[x|]|]; simplify_eq.
  - unfold wait in E. destruct (coordinator w); try done.
    by destruct (context.Done (ctx (grp w))); simplify_eq.
  - unfold wait in E. destruct (coordinator w); try done.
    by destruct (watcher w); simplify_eq.
  - unfold wait in E. destruct (coordinator w); simplify_eq. simpl.
    by apply errored_idle.
  - unfold wait in E. by destruct (coordinator w); simplify_eq.
  - by case_decide; simplify_eq.
Qed.

Lemma latched_run tr w w' :
  context.Done (ctx (grp w)) = true -> run tr w = Some w' ->
  ctx (grp w') = ctx (grp w).
Proof.
  revert w. induction tr as [|ev tr IH]; simpl; intros w H E; [by simplify_eq|].
  destruct (step ev w) as [w1|] eqn:E1; [|done].
  pose proof (latched_step _ _ _ H E1) as E2.
  rewrite <- E2. apply IH; [by rewrite E2|done].
Qed.

Lemma cause_Done w c :
  consistent w -> context.Cause (ctx (grp w)) = Some c ->
  context.Done (ctx (grp w)) = true.
Proof.
  intros [Hc Hw Ho Hx Hp] E. unfold context.Cause in E.
  destruct (context.Done (ctx (grp w))) eqn:ED; [done|].
  apply Done_false, Hx in ED. congruence.
Qed.

Lemma Done_cause w :
  consistent w -> context.Done (ctx (grp w)) = true ->
  exists c, context.Cause (ctx (grp w)) = Some c.
Proof.
  intros [Hc Hw Ho Hx Hp] E. unfold context.Cause.
  destruct (context.cause (ctx (grp w))) as [c|]; [by exists c|].
  pose proof (proj2 Hx eq_refl) as E'. apply Done_false in E'. congruence.
Qed.

(** The stage of [wait] only advances; [WaitEnter] is the step that
    leaves the first stage and [WaitReturn] the step that reaches the last. *)
Lemma stage_step ev w w' :
  step ev w = Some w' ->
  (stage (coordinator w) <= stage (coordinator w'))%nat
  /\ (is_WaitEnter ev = true <->
      stage (coordinator w) = 0%nat /\ stage (coordinator w') <> 0%nat)
  /\ (is_WaitReturn ev = true <->
      stage (coordinator w) <> 4%nat /\ stage (coordinator w') = 4%nat).
Proof.
  assert (forall c c' : coordinatorPC, forall b1 b2 : bool,
    c' = c -> b1 = false -> b2 = false ->
    (stage c <= stage c')%nat
    /\ (b1 = true <-> stage c = 0%nat /\ stage c' <> 0%nat)
    /\ (b2 = true <-> stage c <> 4%nat /\ stage c' = 4%nat)) as Hsame.
  { intros c c' b1 b2 -> -> ->. split; [lia|]. split; split; (done || lia). }
  unfold step. destruct (panicked w); [done|].
  destruct ev; intros E; simplify_eq; simpl;
    try (apply Hsame; try done; apply spawn_grp).
  - unfold task_return in E.
    destruct (pool w !! i) as [[t|t| |]|]; simplify_eq; by apply Hsame.
  - unfold task_done, done in E.
    destruct (pool w !! i) as [[t|t| |]|]; try done.
    destruct (sync.Add (-1) (wg (grp w))); simplify_eq; by apply Hsame.
  - unfold wait in E. destruct (coordinator w); simplify_eq. simpl.
    split; [lia|]. split; split; (done || lia).
  - unfold watch in E. destruct (watcher w); try done.
    destruct (sync.Wait_enter (wg (grp w))); simplify_eq; by apply Hsame.
  - unfold watch in E. destruct (watcher w); try done.
    destruct (sync.Wait_wake (wg (grp w))) as [[x|]|]; simplify_eq;
      by apply Hsame.
  - unfold wait in E. destruct (coordinator w); try done.
    destruct (context.Done (ctx (grp w))); simplify_eq. simpl.
    split; [lia|]. split; split; (done || lia).
  - unfold wait in E. destruct (coordinator w); try done.
    destruct (watcher w); simplify_eq. simpl.
    split; [lia|]. split; split; (done || lia).
  - unfold wait in E. destruct (coordinator w); simplify_eq. simpl.
    split; [lia|]. split; split; (done || lia).
  - unfold wait in E. destruct (coordinator w); simplify_eq. simpl.
    split; [lia|]. split; split; (done || lia).
  - case_decide; simplify_eq. by apply Hsame.
Qed.

Lemma stage_run tr w w' :
  run tr w = Some w' ->
  (stage (coordinator w) <= stage (coordinator w'))%nat
  /\ occurrences is_WaitEnter tr
     = (if decide (stage (coordinator w) = 0 /\ stage (coordinator w') <> 0)%nat
        then 1 else 0)%nat
  /\ occurrences is_WaitReturn tr
     = (if decide (stage (coordinator w) <> 4 /\ stage (coordinator w') = 4)%nat
        then 1 else 0)%nat.
Proof.
  revert w. induction tr as [|ev tr IH]; simpl; intros w E.
  - simplify_eq. split; [lia|]. split; case_decide; lia.
  - destruct (step ev w) as [w1|] eqn:E1; [|done].
    destruct (stage_step _ _ _ E1) as (H1 & H2 & H3).
    destruct (IH _ E) as (H4 & -> & ->).
    assert (stage (coordinator w') <= 4)%nat by (destruct (coordinator w'); simpl; lia).
    split; [lia|].
    split.
    + destruct (is_WaitEnter ev).
      * destruct (proj1 H2 eq_refl). repeat case_decide; lia.
      * assert (~ (stage (coordinator w) = 0%nat /\ stage (coordinator w1) <> 0%nat))
          by (intros X; apply H2 in X; done).
        repeat case_decide; lia.
    + destruct (is_WaitReturn ev).
      * destruct (proj1 H3 eq_refl). repeat case_decide; lia.
      * assert (~ (stage (coordinator w) <> 4%nat /\ stage (coordinator w1) = 4%nat))
          by (intros X; apply H3 in X; done).
        repeat case_decide; lia.
Qed.

End latching.

Section memo.

Implicit Types (w : World) (ev : event) (tr : list event).

(** Only the return of [wait] writes the cell of the OnceValue. *)
Lemma Wait_step ev w w' :
  step ev w = Some w' ->
  if is_WaitReturn ev
  then coordinator w = AtReturn
       /\ Wait (grp w') = Some (context.Cause (ctx (grp w)))
  else Wait (grp w') = Wait (grp w).
Proof.
  unfold step. destruct (panicked w); [done|].
  destruct ev; intros E; simplify_eq; simpl;
    try done; try apply spawn_grp; try apply errored_Wait.
  - unfold task_return in E.
    destruct (pool w !! i) as [[t|t| |]|]; simplify_eq; simpl;
      by rewrite report_Wait.
  - unfold task_done, done in E.
    destruct (pool w !! i) as [[t|t| |]|]; try done.
    by destruct (sync.Add (-1) (wg (grp w))); simplify_eq.
  - unfold wait in E. by destruct (coordinator w); simplify_eq.
  - unfold watch in E. destruct (watcher w); try done.
    by destruct (sync.Wait_enter (wg (grp w))); simplify_eq.
  - unfold watch in E. destruct (watcher w); try done.
    by destruct (sync.Wait_wake (wg (grp w))) as [[x|]|]; simplify_eq.
  - unfold wait in E. destruct (coordinator w); try done.
    by destruct (context.Done (ctx (grp w))); simplify_eq.
  - unfold wait in E. destruct (coordinator w); try done.
    by destruct (watcher w); simplify_eq.
  - unfold wait in E. destruct (coordinator w); simplify_eq. simpl.
    apply errored_Wait.
  - unfold wait in E. by destruct (coordinator w); simplify_eq.
  - by case_decide; simplify_eq.
Qed.

Lemma cached_step ev w w' v :
  consistent w -> Wait (grp w) = Some v -> step ev w = Some w' ->
  Wait (grp w') = Some v.
Proof.
  intros [Hc Hw Ho Hx Hp] H E. apply Wait_step in E.
  destruct (is_WaitReturn ev); [|congruence].
  destruct E as [E _]. rewrite E in Hp. destruct Hp. congruence.
Qed.

Lemma cached_run tr w w' v :
  consistent w -> Wait (grp w) = Some v -> run tr w = Some w' ->
  Wait (grp w') = Some v.
Proof.
  revert w. induction tr as [|ev tr IH]; simpl; intros w Hc H E; [by simplify_eq|].
  destruct (step ev w) as [w1|] eqn:E1; [|done].
  eauto using consistent_step, cached_step.
Qed.

(** Whatever a call of [Wait] has returned is what the cell holds. *)
Lemma observed_cached tr w w' v :
  consistent w -> run tr w = Some w' -> v ∈ observed tr ->
  Wait (grp w') = Some v.
Proof.
  revert w. induction tr as [|ev tr IH]; simpl; intros w Hc E Hv;
    [by apply elem_of_nil in Hv|].
  destruct (step ev w) as [w1|] eqn:E1; [|done].
  pose proof (consistent_step _ _ _ Hc E1) as Hc1.
  destruct ev; eauto.
  apply elem_of_cons in Hv as [->|Hv]; [|eauto].
  unfold step in E1. destruct (panicked w); [done|].
  case_decide; simplify_eq. eauto using cached_run.
Qed.

(** [wait] can finish at once when the context is done: its own steps
    are enabled, whatever the tasks and the watcher are doing. *)
Lemma finish_wait_run w :
  consistent w -> panicked w = false ->
  context.Done (ctx (grp w)) = true -> Wait (grp w) = None ->
  exists w',
    run (finish_wait w) w = Some w'
    /\ Wait (grp w') = Some (context.Cause (ctx (grp w)))
    /\ wg (grp w') = wg (grp w) /\ pool w' = pool w
    /\ panicked w' = false.
Proof.
  intros [Hc Hw Ho Hx Hp] Ha HD HW. unfold finish_wait.
  destruct (coordinator w) eqn:EC;
    [| | | |destruct Hp as (_ & v & Hv & _); congruence];
    simpl;
    repeat (progress (unfold step, wait; simpl; rewrite ?Ha, ?EC, ?HD; simpl));
    (eexists; split; [done|]; simpl;
     rewrite ?errored_idle, ?errored_wg by done; done).
Qed.

End memo.

(** ** Progress and termination of the group's own steps *)

Section liveness.

Implicit Types (w : World) (ev : event) (tr : list event).

(** While [wait] has been entered and has not returned, the group is not
    stuck: [wait], its watcher or a task that is still outstanding can
    take a step. *)
Lemma progress w :
  consistent w -> panicked w = false ->
  coordinator w <> NotCalled -> Wait (grp w) = None ->
  exists ev, internal ev = true /\ is_Some (step ev w).
Proof.
  intros [Hc Hw Ho Hx Hp] Ha Hn HW.
  destruct (coordinator w) eqn:EC; try done.
  - destruct (context.Done (ctx (grp w))) eqn:ED.
    { exists SelectDone. split; [done|]. unfold step, wait. by rewrite Ha, EC, ED. }
    destruct Hp as [Hp _].
    destruct (watcher w) eqn:EW; try done.
    + exists WatcherLoad. split; [done|]. unfold step, watch. rewrite Ha, EW.
      by destruct (sync.Wait_enter (wg (grp w))).
    + destruct Hw as [(_ & _ & Hw)|(_ & Hw)].
      * destruct (outstanding_pos (pool w)) as (i & r & Hi & Hr); [lia|].
        destruct r as [t|t| |]; try done.
        -- exists (TaskReturn i). split; [done|].
           unfold step, task_return. by rewrite Ha, Hi.
        -- exists (TaskReturn i). split; [done|].
           unfold step, task_return. by rewrite Ha, Hi.
        -- exists (TaskDone i). split; [done|].
           unfold step, task_done. rewrite Ha, Hi. by destruct (done (grp w)).
      * exists WatcherWake. split; [done|].
        unfold step, watch, sync.Wait_wake. rewrite Ha, EW, Hw.
        by destruct ((sync.counter (wg (grp w)) =? 0) && (sync.waiters (wg (grp w)) =? 0)%nat).
    + exists SelectCh. split; [done|]. unfold step, wait. by rewrite Ha, EC, EW.
  - exists WaitErrored. split; [done|]. unfold step, wait. by rewrite Ha, EC.
  - exists WaitReturn. split; [done|]. unfold step, wait. by rewrite Ha, EC.
  - destruct Hp as (_ & v & Hv & _). congruence.
Qed.



Lemma step_alive ev w w' : step ev w = Some w' -> panicked w = false.
Proof. unfold step. by destruct (panicked w). Qed.

Lemma run_alive tr w w' :
  run tr w = Some w' -> panicked w' = false -> panicked w = false.
Proof.
  destruct tr as [|ev tr]; simpl; [by intros; simplify_eq|].
  destruct (step ev w) eqn:E; [|done]. intros _ _. eauto using step_alive.
Qed.

Lemma pool_length_step ev w w' :
  step ev w = Some w' -> panicked w' = false ->
  length (pool w') = (length (pool w) + if is_schedule ev then 1 else 0)%nat.
Proof.
  assert (forall r, panicked (spawn r w) = false ->
            length (pool (spawn r w)) = (length (pool w) + 1)%nat) as Hspawn.
  { intros r. unfold spawn. destruct (sync.Add 1 (wg (grp w))); [|done].
    intros _. simpl. by rewrite length_app. }
  unfold step. destruct (panicked w); [done|].
  destruct ev; intros E Ha; simplify_eq; simpl; rewrite ?Nat.add_0_r;
    try done; try by apply Hspawn.
  - unfold task_return in E.
    destruct (pool w !! i) as [[t|t| |]|]; simplify_eq; simpl;
      by rewrite length_insert.
  - unfold task_done in E.
    destruct (pool w !! i) as [[t|t| |]|]; try done.
    destruct (done (grp w)); simplify_eq; simpl; by rewrite ?length_insert.
  - unfold wait in E. by destruct (coordinator w); simplify_eq.
  - unfold watch in E. destruct (watcher w); try done.
    by destruct (sync.Wait_enter (wg (grp w))); simplify_eq.
  - unfold watch in E. destruct (watcher w); try done.
    by destruct (sync.Wait_wake (wg (grp w))) as [[x|]|]; simplify_eq.
  - unfold wait in E. destruct (coordinator w); try done.
    by destruct (context.Done (ctx (grp w))); simplify_eq.
  - unfold wait in E. destruct (coordinator w); try done.
    by destruct (watcher w); simplify_eq.
  - unfold wait in E. by destruct (coordinator w); simplify_eq.
  - unfold wait in E. by destruct (coordinator w); simplify_eq.
  - by case_decide; simplify_eq.
Qed.

Lemma pool_length_run tr w w' :
  run tr w = Some w' -> panicked w' = false ->
  length (pool w') = (length (pool w) + occurrences is_schedule tr)%nat.
Proof.
  revert w. induction tr as [|ev tr IH]; simpl; intros w E Ha;
    [simplify_eq; lia|].
  destruct (step ev w) as [w1|] eqn:E1; [|done].
  rewrite (IH _ E Ha).
  rewrite (pool_length_step _ _ _ E1); [lia|]. eauto using run_alive.
Qed.

End liveness.

(** ** Calm schedules: successful tasks, no cancellation *)

Section calm_schedules.

Implicit Types (w : World) (ev : event) (tr : list event).

Lemma quiet_start parent :
  context.err parent = None -> quiet (start parent).
Proof.
  intros H. split; simpl; try done.
  unfold context.WithCancelCause, context.propagateCancel. by rewrite H.
Qed.

Lemma admits_weaken (ok1 ok2 : World -> event -> bool) :
  (forall w ev, consistent w -> ok1 w ev = true -> ok2 w ev = true) ->
  forall tr w, consistent w -> admits ok1 tr w = true -> admits ok2 tr w = true.
Proof.
  intros Hok tr. induction tr as [|ev tr IH]; simpl; intros w Hc H; [done|].
  apply andb_true_iff in H as [H1 H2]. rewrite (Hok _ _ Hc H1). simpl.
  destruct (step ev w) as [w1|] eqn:E1; [|done].
  eauto using consistent_step.
Qed.

Lemma calm_no_reuse w ev :
  consistent w -> calm w ev = true -> no_reuse w ev = true.
Proof.
  intros [Hc Hw Ho Hx Hp]. unfold calm, no_reuse, draining.
  destruct ev as [[e|]| | | | | | | | | | | | |]; try done.
  destruct (coordinator w); try done. destruct Hp as [-> _]. done.
Qed.

Lemma quiet_step ev w w' :
  consistent w -> quiet w -> calm w ev = true ->
  step ev w = Some w' -> quiet w'.
Proof.
  intros Hcons [Hl Hq Hz] Hok. pose proof Hcons as [Hc Hw Ho Hx Hp].
  unfold step. destruct (panicked w); [done|].
  destruct ev as [[e|]| | | | | | | | | | | | |]; try done; intros E; simplify_eq.
  - (* Go of a task that succeeds, before Wait *)
    simpl in Hok. destruct (coordinator w); try done. destruct Hp as [EW _].
    unfold Go, spawn. destruct (sync.Add 1 (wg (grp w))); [|by split].
    split; simpl; rewrite ?EW; try done.
    apply Forall_app. split; [done|]. by constructor.
  - unfold task_return in E.
    destruct (pool w !! i) as [[t|t| |]|] eqn:EP; simplify_eq.
    + pose proof (Forall_lookup_1 _ _ _ _ Hq EP) as Hs.
      destruct t; [done|]. split; simpl; try done. by apply Forall_insert.
    + by pose proof (Forall_lookup_1 _ _ _ _ Hq EP).
  - unfold task_done, done in E.
    destruct (pool w !! i) as [[t|t| |]|] eqn:EP; try done.
    pose proof (outstanding_lookup _ _ _ EP) as Hout. simpl in Hout.
    destruct (sync.Add (-1) (wg (grp w))) as [y|] eqn:EA; simplify_eq;
      [|by split].
    split; simpl; try done; [by apply Forall_insert|].
    destruct (watcher w); try done; lia.
  - unfold wait in E. destruct (coordinator w); simplify_eq. by split.
  - unfold watch in E. destruct (watcher w); try done.
    unfold sync.Wait_enter in E.
    destruct (sync.counter (wg (grp w)) =? 0) eqn:E0; simpl in E; simplify_eq;
      split; simpl; try done. lia.
  - unfold watch in E. destruct (watcher w) eqn:EW; try done.
    unfold sync.Wait_wake in E. destruct (sync.sema (wg (grp w))); [done|].
    destruct ((sync.counter (wg (grp w)) =? 0) && (sync.waiters (wg (grp w)) =? 0)%nat)
      eqn:E0; simplify_eq; [|by split; simpl; rewrite ?EW].
    split; simpl; try done. apply andb_true_iff in E0 as [E0 _]. lia.
  - unfold wait in E. destruct (coordinator w); try done.
    by rewrite Hl in E.
  - unfold wait in E. destruct (coordinator w); try done.
    destruct (watcher w) eqn:EW; simplify_eq. by split.
  - unfold wait in E. destruct (coordinator w); simplify_eq.
    destruct Hp as (_ & _ & Hp). congruence.
  - unfold wait in E. destruct (coordinator w); simplify_eq. by split.
  - case_decide; simplify_eq. by split.
Qed.

Lemma quiet_run tr w w' :
  consistent w -> quiet w -> admits calm tr w = true ->
  run tr w = Some w' -> quiet w'.
Proof. apply (run_invariant calm quiet). eauto using quiet_step. Qed.

(** On a calm schedule the value that [wait] returns is nil, and by
    then every goroutine of the pool has run its [g.done()]. *)
Lemma quiet_returned w v :
  consistent w -> quiet w -> Wait (grp w) = Some v ->
  v = None /\ sync.counter (wg (grp w)) = 0
  /\ Forall (fun r => r = Exited) (pool w).
Proof.
  intros Hcons [Hl Hq Hz] HW. pose proof Hcons as [Hc Hw Ho Hx Hp].
  destruct (coordinator w);
    try (destruct Hp; simpl in *; intuition congruence).
  destruct Hp as (_ & v' & Hv & Hp). rewrite HW in Hv. simplify_eq.
  destruct v' as [c|].
  - apply (cause_Done _ _ Hcons) in Hp. congruence.
  - rewrite Hp in Hz. split; [done|]. split; [done|].
    apply outstanding_zero. congruence.
Qed.

End calm_schedules.

(** ** What [wait] returns once the context is done *)

Section resolution.

Implicit Types (w : World) (ev : event) (tr : list event).

(** If the context is done before [wait] returns, [wait] returns the
    cause it holds. *)
Lemma returned_latched tr w w' v :
  consistent w -> context.Done (ctx (grp w)) = true -> Wait (grp w) = None ->
  run tr w = Some w' -> Wait (grp w') = Some v ->
  v = context.Cause (ctx (grp w)).
Proof.
  revert w. induction tr as [|ev tr IH]; simpl; intros w Hc HD HW E Hv;
    [simplify_eq; congruence|].
  destruct (step ev w) as [w1|] eqn:E1; [|done].
  pose proof (consistent_step _ _ _ Hc E1) as Hc1.
  pose proof (latched_step _ _ _ HD E1) as Hctx.
  pose proof (Wait_step _ _ _ E1) as HW1.
  destruct (is_WaitReturn ev).
  - destruct HW1 as [_ HW1].
    pose proof (cached_run _ _ _ _ Hc1 HW1 E). congruence.
  - rewrite <- Hctx. apply (IH w1); try done; congruence.
Qed.

(** A cause that is latched while [wait] has not returned is what every
    call of [Wait] returns from then on, and [wait] can return it at
    once. *)
Lemma latched_resolution w c :
  consistent w -> panicked w = false -> Wait (grp w) = None ->
  context.Cause (ctx (grp w)) = Some c ->
  (forall tr w' v, run tr w = Some w' -> Wait (grp w') = Some v -> v = Some c)
  /\ exists w', run (finish_wait w) w = Some w'
       /\ Wait (grp w') = Some (Some c)
       /\ wg (grp w') = wg (grp w) /\ pool w' = pool w.
Proof.
  intros Hc Ha HW Hcause.
  pose proof (cause_Done _ _ Hc Hcause) as HD. split.
  - intros tr w' v E Hv. rewrite <- Hcause. eauto using returned_latched.
  - destruct (finish_wait_run _ Hc Ha HD HW) as (w' & E & H1 & H2 & H3 & _).
    exists w'. rewrite <- Hcause. auto.
Qed.

Lemma reachable_consistent parent tr w :
  run tr (start parent) = Some w -> consistent w.
Proof. apply consistent_run, consistent_start. Qed.

End resolution.

(** ** The claims *)

Section bookkeeping.

Implicit Types (w : World) (ev : event) (tr : list event).

Lemma cached_Returned w v :
  consistent w -> Wait (grp w) = Some v -> coordinator w = Returned.
Proof.
  intros [Hc Hw Ho Hx Hp] H.
  destruct (coordinator w); try done;
    destruct Hp; simpl in *; intuition congruence.
Qed.

Lemma run_app tr1 tr2 w : run (tr1 ++ tr2) w = run tr1 w ≫= run tr2.
Proof.
  revert w. induction tr1 as [|ev tr1 IH]; simpl; intros w; [done|].
  destruct (step ev w); simpl; [apply IH|done].
Qed.

Lemma occurrences_split f tr :
  (0 < occurrences f tr)%nat ->
  exists tr1 ev tr2, tr = tr1 ++ ev :: tr2 /\ f ev = true.
Proof.
  induction tr as [|ev tr IH]; simpl; [lia|]. intros H.
  destruct (f ev) eqn:Ef.
  - by exists [], ev, tr.
  - destruct IH as (tr1 & ev' & tr2 & -> & Hf); [lia|].
    by exists (ev :: tr1), ev', tr2.
Qed.

(** The return of [wait] stores the cause the context holds at that moment;
    no call of [Wait] has returned before it, and the value stays. *)
Lemma evaluation_stored tr1 tr2 w w0 w' :
  consistent w -> run tr1 w = Some w0 ->
  run (tr1 ++ WaitReturn :: tr2) w = Some w' ->
  observed tr1 = []
  /\ waitFunction (grp w') = Some (context.Cause (ctx (grp w0))).
Proof.
  intros Hc E0 E. rewrite run_app, E0 in E. simpl in E.
  destruct (step WaitReturn w0) as [w1|] eqn:E1; [|done].
  pose proof (consistent_run _ _ _ Hc E0) as Hc0.
  pose proof (Wait_step _ _ _ E1) as HW. simpl in HW.
  destruct HW as [EC HW]. split.
  - apply elem_of_nil_inv. intros v Hv.
    pose proof (observed_cached _ _ _ _ Hc E0 Hv) as H.
    pose proof (cached_Returned _ _ Hc0 H). congruence.
  - eapply (cached_run tr2 w1); [by eapply consistent_step|exact HW|exact E].
Qed.

Lemma indicator_le_1 (P : Prop) `{!Decision P} :
  ((if decide P then 1 else 0) <= 1)%nat.
Proof. destruct (decide P); lia. Qed.

End bookkeeping.

(** C1.  Every call of Wait on a group returns the same value, the one the
    single evaluation of [wait] has stored.  Whatever the schedule, [wait] is
    entered at most once and returns at most once; any two calls of [Wait]
    in the schedule have returned the same value; a call has returned only
    after the one evaluation of [wait] has, and what it has returned is
    [context.Cause(g.ctx)] as it was at the moment that evaluation
    returned, which is also what the cell of the OnceValue holds for good,
    whatever happens to the context afterwards; and once a value is stored,
    a call of [Wait] is a single step that returns that value and no other
    and leaves the whole state, the stage of [wait] included, as it is: the
    race is not run again and nothing is awaited. *)
Theorem Wait_is_idempotent parent tr w :
  run tr (start parent) = Some w ->
  (occurrences is_WaitEnter tr <= 1)%nat
  /\ (occurrences is_WaitReturn tr <= 1)%nat
  /\ (forall v1 v2, v1 ∈ observed tr -> v2 ∈ observed tr -> v1 = v2)
  /\ (forall v, v ∈ observed tr ->
        occurrences is_WaitEnter tr = 1%nat
        /\ occurrences is_WaitReturn tr = 1%nat
        /\ Wait (grp w) = Some v)
  /\ (forall v, v ∈ observed tr ->
        exists tr1 tr2 w0,
          tr = tr1 ++ WaitReturn :: tr2
          /\ run tr1 (start parent) = Some w0
          /\ observed tr1 = []
          /\ v = context.Cause (ctx (grp w0)))
  /\ (forall tr1 tr2 w0,
        tr = tr1 ++ WaitReturn :: tr2 ->
        run tr1 (start parent) = Some w0 ->
        waitFunction (grp w) = Some (context.Cause (ctx (grp w0)))
        /\ forall v, v ∈ observed tr -> v = context.Cause (ctx (grp w0)))
  /\ (forall v, waitFunction (grp w) = Some v -> panicked w = false ->
        step (CallWait v) w = Some w
        /\ forall v' w', step (CallWait v') w = Some w' -> v' = v /\ w' = w).
Proof.
  intros E. pose proof (consistent_start parent) as Hc0.
  pose proof (consistent_run _ _ _ Hc0 E) as Hc.
  destruct (stage_run _ _ _ E) as (_ & HE & HR). simpl in HE, HR.
  assert (forall v, v ∈ observed tr -> Wait (grp w) = Some v) as Hobs
    by eauto using observed_cached.
  assert (forall tr1 tr2 w0,
            tr = tr1 ++ WaitReturn :: tr2 -> run tr1 (start parent) = Some w0 ->
            observed tr1 = []
            /\ waitFunction (grp w) = Some (context.Cause (ctx (grp w0))))
    as Hst.
  { intros tr1 tr2 w0 Htr E0. rewrite Htr in E.
    exact (evaluation_stored tr1 tr2 (start parent) w0 w Hc0 E0 E). }
  split; [rewrite HE; apply indicator_le_1|].
  split; [rewrite HR; apply indicator_le_1|].
  split; [intros v1 v2 H1%Hobs H2%Hobs; congruence|].
  split.
  { intros v Hv%Hobs. rewrite HE, HR.
    rewrite (cached_Returned _ _ Hc Hv). simpl. done. }
  split.
  { intros v Hv. pose proof (Hobs v Hv) as HW.
    assert (occurrences is_WaitReturn tr = 1%nat) as H1.
    { rewrite HR. by rewrite (cached_Returned _ _ Hc HW). }
    destruct (occurrences_split is_WaitReturn tr)
      as (tr1 & ev & tr2 & Htr & Hev); [lia|].
    destruct ev; try done.
    assert (exists w0, run tr1 (start parent) = Some w0) as [w0 E0].
    { pose proof E as E'. rewrite Htr, run_app in E'.
      destruct (run tr1 (start parent)) as [w0|]; [by exists w0|done]. }
    destruct (Hst _ _ _ Htr E0) as [H2 H3].
    exists tr1, tr2, w0. split; [done|]. split; [done|]. split; [done|].
    unfold Wait in HW. congruence. }
  split.
  { intros tr1 tr2 w0 Htr E0. destruct (Hst _ _ _ Htr E0) as [_ H3].
    split; [exact H3|]. intros v Hv%Hobs. unfold Wait in Hv. congruence. }
  intros v Hv Ha.
  assert (step (CallWait v) w = Some w) as Hs.
  { unfold step. rewrite Ha. by rewrite decide_True. }
  split; [done|]. intros v' w' E'. unfold step in E'. rewrite Ha in E'.
  case_decide as Hd; simplify_eq. split; [|done].
  unfold Wait in Hd. congruence.
Qed.

Lemma Wait_is_idempotent_witness :
  (run failed_then_waited (start context.Background)
   = Some (after failed_then_waited context.Background)
   /\ observed failed_then_waited
      = [Some (errorString 2); Some (errorString 2)]
   /\ waitFunction (grp (after failed_then_waited context.Background))
      = Some (Some (errorString 2))
   /\ (
    (occurrences is_WaitEnter failed_then_waited <= 1)%nat
    /\ (occurrences is_WaitReturn failed_then_waited <= 1)%nat
    /\ (forall v1 v2, v1 ∈ observed failed_then_waited -> v2 ∈ observed failed_then_waited -> v1 = v2)
    /\ (forall v, v ∈ observed failed_then_waited ->
          occurrences is_WaitEnter failed_then_waited = 1%nat
          /\ occurrences is_WaitReturn failed_then_waited = 1%nat
          /\ Wait (grp (after failed_then_waited context.Background)) = Some v)
    /\ (forall v, v ∈ observed failed_then_waited ->
          exists tr1 tr2 w0,
            failed_then_waited = tr1 ++ WaitReturn :: tr2
            /\ run tr1 (start context.Background) = Some w0
            /\ observed tr1 = []
            /\ v = context.Cause (ctx (grp w0)))
    /\ (forall tr1 tr2 w0,
          failed_then_waited = tr1 ++ WaitReturn :: tr2 ->
          run tr1 (start context.Background) = Some w0 ->
          waitFunction (grp (after failed_then_waited context.Background)) = Some (context.Cause (ctx (grp w0)))
          /\ forall v, v ∈ observed failed_then_waited -> v = context.Cause (ctx (grp w0)))
    /\ (forall v, waitFunction (grp (after failed_then_waited context.Background)) = Some v -> panicked (after failed_then_waited context.Background) = false ->
          step (CallWait v) (after failed_then_waited context.Background) = Some (after failed_then_waited context.Background)
          /\ forall v' w', step (CallWait v') (after failed_then_waited context.Background) = Some w' -> v' = v /\ w' = (after failed_then_waited context.Background))))
  /\ (run wait_twice (start context.Background)
      = Some (after wait_twice context.Background)
      /\ observed wait_twice = [None; None]
      /\ waitFunction (grp (after wait_twice context.Background)) = Some None
      /\ context.Cause (ctx (grp (after wait_twice context.Background)))
         = Some ErrorGroupCanceled
      /\ (
    (occurrences is_WaitEnter wait_twice <= 1)%nat
    /\ (occurrences is_WaitReturn wait_twice <= 1)%nat
    /\ (forall v1 v2, v1 ∈ observed wait_twice -> v2 ∈ observed wait_twice -> v1 = v2)
    /\ (forall v, v ∈ observed wait_twice ->
          occurrences is_WaitEnter wait_twice = 1%nat
          /\ occurrences is_WaitReturn wait_twice = 1%nat
          /\ Wait (grp (after wait_twice context.Background)) = Some v)
    /\ (forall v, v ∈ observed wait_twice ->
          exists tr1 tr2 w0,
            wait_twice = tr1 ++ WaitReturn :: tr2
            /\ run tr1 (start context.Background) = Some w0
            /\ observed tr1 = []
            /\ v = context.Cause (ctx (grp w0)))
    /\ (forall tr1 tr2 w0,
          wait_twice = tr1 ++ WaitReturn :: tr2 ->
          run tr1 (start context.Background) = Some w0 ->
          waitFunction (grp (after wait_twice context.Background)) = Some (context.Cause (ctx (grp w0)))
          /\ forall v, v ∈ observed wait_twice -> v = context.Cause (ctx (grp w0)))
    /\ (forall v, waitFunction (grp (after wait_twice context.Background)) = Some v -> panicked (after wait_twice context.Background) = false ->
          step (CallWait v) (after wait_twice context.Background) = Some (after wait_twice context.Background)
          /\ forall v' w', step (CallWait v') (after wait_twice context.Background) = Some w' -> v' = v /\ w' = (after wait_twice context.Background)))).
Proof.
  split.
  - split; [reflexivity|]. split; [reflexivity|]. split; [reflexivity|].
    apply (Wait_is_idempotent context.Background failed_then_waited).
    reflexivity.
  - split; [reflexivity|]. split; [reflexivity|]. split; [reflexivity|].
    split; [reflexivity|].
    apply (Wait_is_idempotent context.Background wait_twice). reflexivity.
Defined.

(** C2.  At most one cause is ever latched.  Once the context of a group
    holds a cause, no schedule changes it: whatever steps follow (calls of
    Cancel, tasks that report errors, the cancellation of the parent, the
    [errored] of [wait] itself), the cause is the same afterwards; and each
    of the three writers is a no-op on the context: [errored] with any
    error (Cancel, a task's error) and the cancellation of the parent. *)
Theorem cause_is_latched_once parent tr1 w1 c :
  run tr1 (start parent) = Some w1 ->
  context.Cause (ctx (grp w1)) = Some c ->
  (forall tr2 w2, run tr2 w1 = Some w2 -> context.Cause (ctx (grp w2)) = Some c)
  /\ ctx (Cancel (grp w1)) = ctx (grp w1)
  /\ (forall e, ctx (errored e (grp w1)) = ctx (grp w1))
  /\ (forall r, ctx (report r (grp w1)) = ctx (grp w1))
  /\ (forall e cs, ctx (parentCancel e cs (grp w1)) = ctx (grp w1)).
Proof.
  intros E Hcause. pose proof (reachable_consistent _ _ _ E) as Hc.
  pose proof (cause_Done _ _ Hc Hcause) as HD.
  split.
  - intros tr2 w2 E2. by rewrite (latched_run _ _ _ HD E2).
  - split; [by apply errored_idle|].
    auto using errored_idle, report_idle, parentCancel_idle.
Qed.

Lemma cause_is_latched_once_witness :
  run three_causes (start context.Background)
  = Some (after three_causes context.Background)
  /\ context.Cause (ctx (grp (after three_causes context.Background)))
     = Some (errorString 7)
  /\ context.Cause
       (ctx (grp (after (three_causes ++ three_causes_later) context.Background)))
     = Some (errorString 7).
Proof.
  split; [reflexivity|]. split; [reflexivity|].
  apply (proj1 (cause_is_latched_once context.Background three_causes
                  (after three_causes context.Background) (errorString 7)
                  eq_refl eq_refl) three_causes_later).
  reflexivity.
Defined.

Section cancellation.

Implicit Types (w : World) (ev : event) (tr : list event).

Lemma no_cause_fresh w :
  consistent w -> context.Cause (ctx (grp w)) = None ->
  errOnce (grp w) = false /\ context.err (ctx (grp w)) = None.
Proof.
  intros [Hc Hw Ho Hx Hp] H. apply Hx in H. split; [|done].
  destruct (errOnce (grp w)); [|done].
  apply Done_false in H. rewrite Ho in H; done.
Qed.

Lemma consistent_Cancel w :
  consistent w -> consistent (with_grp (Cancel (grp w)) w).
Proof. apply (consistent_report (Some ErrorGroupCanceled)). Qed.

Lemma run_cons ev tr w : run (ev :: tr) w = step ev w ≫= run tr.
Proof. simpl. by destruct (step ev w). Qed.

End cancellation.

(** C3.  Cancel offers [ErrorGroupCanceled] to the latch.  In every
    reachable state: if no cause is latched, Cancel latches
    [ErrorGroupCanceled], and a [wait] that has not returned yet returns
    it, in every schedule that follows, and can return it at once; if a
    cause [c] is latched already (a task's error, say), Cancel leaves the
    context as it is, and a [wait] that has not returned yet returns [c]. *)
Theorem Cancel_offers_the_sentinel parent tr w :
  run tr (start parent) = Some w -> panicked w = false ->
  (context.Cause (ctx (grp w)) = None ->
     context.Cause (ctx (Cancel (grp w))) = Some ErrorGroupCanceled
     /\ (Wait (grp w) = None ->
         (forall tr' w' v, run (CallCancel :: tr') w = Some w' ->
            Wait (grp w') = Some v -> v = Some ErrorGroupCanceled)
         /\ exists w', run (CallCancel :: finish_wait w) w = Some w'
              /\ Wait (grp w') = Some (Some ErrorGroupCanceled)))
  /\ (forall c, context.Cause (ctx (grp w)) = Some c ->
        ctx (Cancel (grp w)) = ctx (grp w)
        /\ (Wait (grp w) = None ->
            (forall tr' w' v, run (CallCancel :: tr') w = Some w' ->
               Wait (grp w') = Some v -> v = Some c)
            /\ exists w', run (CallCancel :: finish_wait w) w = Some w'
                 /\ Wait (grp w') = Some (Some c))).
Proof.
  intros E Ha. pose proof (reachable_consistent _ _ _ E) as Hc.
  pose proof (consistent_Cancel _ Hc) as Hc1.
  assert (forall c, context.Cause (ctx (Cancel (grp w))) = Some c ->
            Wait (grp w) = None ->
            (forall tr' w' v, run (CallCancel :: tr') w = Some w' ->
               Wait (grp w') = Some v -> v = Some c)
            /\ exists w', run (CallCancel :: finish_wait w) w = Some w'
                 /\ Wait (grp w') = Some (Some c)) as Hres.
  { intros c Hcause HW.
    destruct (latched_resolution (with_grp (Cancel (grp w)) w) c)
      as (H1 & w' & H2 & H3 & _); try done.
    { simpl. unfold Cancel. by rewrite errored_Wait. }
    assert (step CallCancel w = Some (with_grp (Cancel (grp w)) w)) as Hstep
      by (unfold step; by rewrite Ha).
    split.
    - intros tr' w'' v E'. rewrite run_cons, Hstep in E'. simpl in E'. eauto.
    - exists w'. rewrite run_cons, Hstep. simpl. by split. }
  split.
  - intros Hnone. destruct (no_cause_fresh _ Hc Hnone) as [H1 H2].
    assert (context.Cause (ctx (Cancel (grp w))) = Some ErrorGroupCanceled) as H3
      by (unfold Cancel; by rewrite errored_latch).
    split; [done|]. by apply Hres.
  - intros c Hcause. pose proof (cause_Done _ _ Hc Hcause) as HD.
    assert (ctx (Cancel (grp w)) = ctx (grp w)) as H3 by by apply errored_idle.
    split; [done|]. apply Hres. by rewrite H3.
Qed.

Lemma Cancel_offers_the_sentinel_witness :
  run one_coordinated (start context.Background)
  = Some (after one_coordinated context.Background)
  /\ panicked (after one_coordinated context.Background) = false
  /\ context.Cause (ctx (grp (after one_coordinated context.Background))) = None
  /\ Wait (grp (after one_coordinated context.Background)) = None
  /\ context.Cause (ctx (Cancel (grp (after one_coordinated context.Background))))
     = Some ErrorGroupCanceled
  /\ exists w',
       run (CallCancel :: finish_wait (after one_coordinated context.Background))
         (after one_coordinated context.Background) = Some w'
       /\ Wait (grp w') = Some (Some ErrorGroupCanceled).
Proof.
  split; [reflexivity|]. split; [reflexivity|]. split; [reflexivity|].
  split; [reflexivity|].
  destruct (proj1 (Cancel_offers_the_sentinel context.Background one_coordinated
                     (after one_coordinated context.Background) eq_refl eq_refl)
              eq_refl) as [H1 H2].
  split; [exact H1|]. exact (proj2 (H2 eq_refl)).
Defined.

(** The OnceValue does not revise a value: in [wait_twice] the Cancel comes
    after [wait] has returned nil; the context then holds
    [ErrorGroupCanceled], and Wait still returns nil. *)
Example Wait_keeps_the_value_it_has_returned :
  context.Cause (ctx (grp (after wait_twice context.Background)))
  = Some ErrorGroupCanceled
  /\ Wait (grp (after wait_twice context.Background)) = Some None.
Proof. split; reflexivity. Qed.

(** C5.  The first error a task reports is what Wait returns.  In every
    reachable state in which no cause is latched and goroutine [i], of
    either kind, is about to return the error [e]: its return latches
    exactly [e]; whatever follows, the cause stays [e], and the report of
    any later task (any [report r]) leaves the context as it is; and if the
    evaluation of [wait] has not returned yet, then in every schedule that
    follows the value stored for Wait, and every value a call of Wait
    returns, is [e], and [wait] can return [e] at once. *)
Theorem first_task_error_wins parent tr w i e :
  run tr (start parent) = Some w -> panicked w = false ->
  reports w i e -> context.Cause (ctx (grp w)) = None ->
  exists w1,
    step (TaskReturn i) w = Some w1
    /\ context.Cause (ctx (grp w1)) = Some e
    /\ (forall tr' w', run tr' w1 = Some w' ->
          context.Cause (ctx (grp w')) = Some e
          /\ forall r, ctx (report r (grp w')) = ctx (grp w'))
    /\ (coordinator w <> Returned ->
        (forall tr' w', run tr' w1 = Some w' ->
           (forall v, Wait (grp w') = Some v -> v = Some e)
           /\ (forall v, v ∈ observed tr' -> v = Some e))
        /\ exists w', run (finish_wait w1) w1 = Some w'
             /\ Wait (grp w') = Some (Some e)).
Proof.
  intros E Ha Hrep Hnone. pose proof (reachable_consistent _ _ _ E) as Hc.
  destruct (no_cause_fresh _ Hc Hnone) as [H1 H2].
  assert (exists w1, step (TaskReturn i) w = Some w1
            /\ grp w1 = errored e (grp w) /\ panicked w1 = false)
    as (w1 & E1 & Hg & Ha1).
  { unfold step, task_return, reports in *. rewrite Ha.
    destruct (pool w !! i) as [[t|t| |]|]; try done; rewrite Hrep;
      eexists; by split. }
  pose proof (consistent_step _ _ _ Hc E1) as Hc1.
  assert (context.Cause (ctx (grp w1)) = Some e) as Hcause
    by (rewrite Hg; by rewrite errored_latch).
  pose proof (cause_Done _ _ Hc1 Hcause) as HD.
  exists w1. split; [done|]. split; [done|]. split.
  - intros tr' w' E'. pose proof (latched_run _ _ _ HD E') as Hctx.
    split; [by rewrite Hctx|].
    intros r. apply report_idle. by rewrite Hctx.
  - intros Hnot.
    assert (Wait (grp w) = None) as HW.
    { destruct Hc as [_ _ _ _ Hp].
      destruct (coordinator w); try done; simpl in Hp; intuition. }
    destruct (latched_resolution w1 e) as (H3 & w' & H4 & H5 & _); try done.
    { rewrite Hg. by rewrite errored_Wait. }
    split; [|by exists w']. intros tr' w2 E2.
    split; [intros v Hv; by apply (H3 tr' w2)|].
    intros v Hv. apply (H3 tr' w2); [done|].
    exact (observed_cached tr' w1 w2 v Hc1 E2 Hv).
Qed.

Lemma first_task_error_wins_witness :
  run first_of_two (start context.Background)
  = Some (after first_of_two context.Background)
  /\ panicked (after first_of_two context.Background) = false
  /\ reports (after first_of_two context.Background) 0 (errorString 1)
  /\ context.Cause (ctx (grp (after first_of_two context.Background))) = None
  /\ coordinator (after first_of_two context.Background) <> Returned
  /\ run (TaskReturn 0 :: first_of_two_rest)
       (after first_of_two context.Background)
     = Some (after (first_of_two ++ TaskReturn 0 :: first_of_two_rest)
               context.Background)
  /\ observed first_of_two_rest = [Some (errorString 1)]
  /\ Wait (grp (after (first_of_two ++ TaskReturn 0 :: first_of_two_rest)
                  context.Background))
     = Some (Some (errorString 1))
  /\ exists w1,
       step (TaskReturn 0) (after first_of_two context.Background) = Some w1
       /\ context.Cause (ctx (grp w1)) = Some (errorString 1)
       /\ (forall w',
             run first_of_two_rest w1 = Some w' ->
             context.Cause (ctx (grp w')) = Some (errorString 1)
             /\ (forall v, Wait (grp w') = Some v ->
                   v = Some (errorString 1))
             /\ (forall v, v ∈ observed first_of_two_rest ->
                   v = Some (errorString 1)))
       /\ exists w', run (finish_wait w1) w1 = Some w'
            /\ Wait (grp w') = Some (Some (errorString 1)).
Proof.
  assert (coordinator (after first_of_two context.Background) <> Returned)
    as Hnot by (vm_compute; discriminate).
  split; [reflexivity|]. split; [reflexivity|]. split; [reflexivity|].
  split; [reflexivity|]. split; [exact Hnot|]. split; [reflexivity|].
  split; [reflexivity|]. split; [reflexivity|].
  destruct (first_task_error_wins context.Background first_of_two
              (after first_of_two context.Background) 0 (errorString 1)
              eq_refl eq_refl eq_refl eq_refl) as (w1 & H1 & H2 & H3 & H4).
  destruct (H4 Hnot) as [H5 H6].
  exists w1. split; [exact H1|]. split; [exact H2|]. split; [|exact H6].
  intros w' E. split; [exact (proj1 (H3 _ _ E))|]. exact (H5 _ _ E).
Defined.

(** C7.  When the context is done while work is still outstanding, Wait
    returns at once.  In every reachable state whose context is done, whose
    counter is positive and in which [wait] has not returned: the context
    holds a cause [c]; the steps [wait] itself has left (at most four, none
    of them a step of a task or of the watcher) run to its return, with the
    value [c]; the counter and the pool are as before, so the outstanding
    tasks are still outstanding; and [c] is what Wait returns in every
    schedule. *)
Theorem Wait_returns_on_cancellation parent tr w :
  run tr (start parent) = Some w -> panicked w = false ->
  context.Done (ctx (grp w)) = true ->
  0 < sync.counter (wg (grp w)) ->
  Wait (grp w) = None ->
  exists c w',
    context.Cause (ctx (grp w)) = Some c
    /\ run (finish_wait w) w = Some w'
    /\ (length (finish_wait w) <= 4)%nat
    /\ Wait (grp w') = Some (Some c)
    /\ pool w' = pool w
    /\ sync.counter (wg (grp w')) = sync.counter (wg (grp w))
    /\ 0 < outstanding (pool w')
    /\ forall tr' w'' v, run tr' w = Some w'' ->
         Wait (grp w'') = Some v -> v = Some c.
Proof.
  intros E Ha HD Hpos HW. pose proof (reachable_consistent _ _ _ E) as Hc.
  destruct (Done_cause _ Hc HD) as [c Hcause].
  destruct (latched_resolution w c) as (H1 & w' & H2 & H3 & H4 & H5); try done.
  exists c, w'. split; [done|]. split; [done|].
  split; [unfold finish_wait; destruct (coordinator w); simpl; lia|].
  split; [done|]. split; [done|]. split; [by rewrite H4|].
  split; [|done]. rewrite H5. destruct Hc as [Hc _ _ _ _]. lia.
Qed.

Lemma Wait_returns_on_cancellation_witness :
  run cancelled_while_waiting (start context.Background)
  = Some (after cancelled_while_waiting context.Background)
  /\ sync.counter (wg (grp (after cancelled_while_waiting context.Background))) = 1
  /\ exists w',
       run [SelectDone; WaitErrored; WaitReturn]
         (after cancelled_while_waiting context.Background) = Some w'
       /\ Wait (grp w') = Some (Some ErrorGroupCanceled)
       /\ pool w' = pool (after cancelled_while_waiting context.Background).
Proof.
  split; [reflexivity|]. split; [reflexivity|].
  destruct (Wait_returns_on_cancellation context.Background
              cancelled_while_waiting
              (after cancelled_while_waiting context.Background)
              eq_refl eq_refl eq_refl eq_refl eq_refl)
    as (c & w' & H1 & H2 & _ & H3 & H4 & _).
  exists w'. split; [exact H2|]. split; [|exact H4].
  rewrite H3. exact (f_equal Some (eq_sym H1)).
Defined.

Section completion.

Implicit Types (w : World) (ev : event) (tr : list event).

Lemma idle_calm w ev : idle w ev = true -> calm w ev = true.
Proof. unfold idle, calm. by destruct ev as [[e|]| | | | | | | | | | | | |]. Qed.

Lemma idle_pool ev w w' :
  idle w ev = true -> step ev w = Some w' -> pool w = [] -> pool w' = [].
Proof.
  unfold step. destruct (panicked w); [done|].
  destruct ev; try done; intros _ E Hp; simplify_eq; try done.
  - unfold task_return in E. by rewrite Hp in E.
  - unfold task_done in E. by rewrite Hp in E.
  - unfold wait in E. by destruct (coordinator w); simplify_eq.
  - unfold watch in E. destruct (watcher w); try done.
    by destruct (sync.Wait_enter (wg (grp w))); simplify_eq.
  - unfold watch in E. destruct (watcher w); try done.
    by destruct (sync.Wait_wake (wg (grp w))) as [[x|]|]; simplify_eq.
  - unfold wait in E. destruct (coordinator w); try done.
    by destruct (context.Done (ctx (grp w))); simplify_eq.
  - unfold wait in E. destruct (coordinator w); try done.
    by destruct (watcher w); simplify_eq.
  - unfold wait in E. by destruct (coordinator w); simplify_eq.
  - unfold wait in E. by destruct (coordinator w); simplify_eq.
  - by case_decide; simplify_eq.
Qed.

Lemma idle_pool_run tr w w' :
  admits idle tr w = true -> run tr w = Some w' -> pool w = [] -> pool w' = [].
Proof.
  revert w. induction tr as [|ev tr IH]; simpl; intros w H E Hp;
    [by simplify_eq|].
  apply andb_true_iff in H as [H1 H2].
  destruct (step ev w) as [w1|] eqn:E1; [|done].
  eauto using idle_pool.
Qed.

(** What a calm schedule from a fresh group with a live parent leads to. *)
Lemma calm_reachable parent tr w :
  context.err parent = None ->
  admits calm tr (start parent) = true ->
  run tr (start parent) = Some w ->
  consistent w /\ sound w /\ quiet w.
Proof.
  intros Hlive Hok E. pose proof (consistent_start parent) as Hc0.
  split; [by eapply consistent_run|]. split.
  - eapply sound_run; [done|apply sound_start| |done].
    eapply admits_weaken; [|done|done]. apply calm_no_reuse.
  - eapply quiet_run; [done|by apply quiet_start|done|done].
Qed.

(** The outcome of a calm schedule. *)
Lemma calm_outcome parent tr w :
  context.err parent = None ->
  admits calm tr (start parent) = true ->
  run tr (start parent) = Some w ->
  panicked w = false
  /\ (forall v, v ∈ observed tr -> v = None)
  /\ (forall v, Wait (grp w) = Some v ->
        v = None
        /\ sync.counter (wg (grp w)) = 0
        /\ length (pool w) = occurrences is_schedule tr
        /\ Forall (fun r => r = Exited) (pool w))
  /\ (coordinator w <> NotCalled -> Wait (grp w) = None ->
        exists ev, internal ev = true /\ is_Some (step ev w)).
Proof.
  intros Hlive Hok E.
  destruct (calm_reachable _ _ _ Hlive Hok E) as (Hc & [Ha _] & Hq).
  assert (forall v, Wait (grp w) = Some v ->
            v = None /\ sync.counter (wg (grp w)) = 0
            /\ length (pool w) = occurrences is_schedule tr
            /\ Forall (fun r => r = Exited) (pool w)) as Hret.
  { intros v Hv. destruct (quiet_returned _ _ Hc Hq Hv) as (H1 & H2 & H3).
    split; [done|]. split; [done|]. split; [|done].
    by rewrite (pool_length_run _ _ _ E Ha). }
  split; [done|]. split.
  { intros v Hv. apply (Hret v).
    eapply observed_cached; [apply consistent_start|done|done]. }
  split; [done|]. by apply progress.
Qed.

End completion.



(** C10.  A fresh group on which nothing is scheduled.  With a live
    parent, [wait] returns nil in four steps of its own (enter, the watcher
    finds the counter at zero, the select takes the watcher's send,
    return); and in every schedule without Go, Co, Cancel and a cancellation
    of the parent, nothing panics, the pool stays empty, nil is the only
    value [wait] returns and the only one a call of Wait has returned,
    [wait] is never stuck before it has returned, and it has at most
    [fuel w <= 6] steps left. *)
Theorem Wait_on_a_fresh_group parent :
  context.err parent = None ->
  (exists w, run by_ch (start parent) = Some w /\ Wait (grp w) = Some None)
  /\ forall tr w,
       admits idle tr (start parent) = true ->
       run tr (start parent) = Some w ->
       panicked w = false
       /\ pool w = []
       /\ (forall v, Wait (grp w) = Some v -> v = None)
       /\ (forall v, v ∈ observed tr -> v = None)
       /\ (coordinator w <> NotCalled -> Wait (grp w) = None ->
             exists ev, internal ev = true /\ is_Some (step ev w))
       /\ (fuel w <= 6)%nat.
Proof.
  intros Hlive. split.
  - destruct parent as [pe pc]. simpl in Hlive. subst pe.
    eexists. split; reflexivity.
  - intros tr w Hok E.
    assert (admits calm tr (start parent) = true) as Hcalm.
    { eapply admits_weaken; [|apply consistent_start|done].
      intros ? ? _. apply idle_calm. }
    destruct (calm_outcome _ _ _ Hlive Hcalm E) as (Ha & Hobs & Hret & Hprog).
    pose proof (idle_pool_run _ _ _ Hok E eq_refl) as Hpool.
    split; [done|]. split; [done|].
    split; [intros v Hv; by destruct (Hret v Hv)|].
    split; [done|]. split; [done|].
    unfold fuel. rewrite Ha, Hpool. simpl.
    destruct (watcher w), (coordinator w); simpl; lia.
Qed.

Lemma Wait_on_a_fresh_group_witness :
  context.err context.Background = None
  /\ run by_ch (start context.Background) = Some (after by_ch context.Background)
  /\ Wait (grp (after by_ch context.Background)) = Some None
  /\ forall v, Wait (grp (after by_ch context.Background)) = Some v -> v = None.
Proof.
  split; [reflexivity|]. split; [reflexivity|]. split; [reflexivity|].
  destruct (proj2 (Wait_on_a_fresh_group context.Background eq_refl)
              by_ch (after by_ch context.Background) eq_refl eq_refl)
    as (_ & _ & H & _).
  exact H.
Defined.

(** C9, as it is stated, fails: a schedule of a fresh group that ends in a
    panic.  One task is scheduled and Wait is called, so the watcher parks
    on the WaitGroup; the task finishes and its [g.done()] releases the
    watcher; before the watcher has resumed a second task is scheduled; the
    watcher wakes up inside [g.wg.Wait()], finds the counter at one and
    panics ("WaitGroup is reused before previous Wait has returned"). *)
Lemma Wait_panics_when_the_WaitGroup_is_reused :
  run reuse (start context.Background) = Some (after reuse context.Background)
  /\ coordinator (after reuse context.Background) = AtSelect
  /\ panicked (after reuse context.Background) = true.
Proof. repeat split; vm_compute; reflexivity. Qed.

(** C9, amended.  In every schedule of a group made by [NewWithContext] in
    which no unit of work is scheduled while the watcher is being released
    (the counter is zero and the parked watcher has not resumed), nothing
    panics: not [wait], not its watcher, not a [g.done()], not a Go or Co.
    Once [wait] has returned, every call of Wait returns the stored value
    in one step, without a change of state; and before that, [wait] is
    never stuck: a step of a task that is still outstanding, of the watcher
    or of [wait] itself is enabled. *)
Theorem Wait_does_not_panic parent tr w :
  admits no_reuse tr (start parent) = true ->
  run tr (start parent) = Some w ->
  panicked w = false
  /\ (forall v, Wait (grp w) = Some v -> step (CallWait v) w = Some w)
  /\ (coordinator w <> NotCalled -> Wait (grp w) = None ->
        exists ev, internal ev = true /\ is_Some (step ev w)).
Proof.
  intros Hok E. pose proof (reachable_consistent _ _ _ E) as Hc.
  destruct (sound_run _ _ _ (consistent_start parent) (sound_start parent) Hok E)
    as [Ha _].
  split; [done|]. split.
  - intros v Hv. unfold step. rewrite Ha. by rewrite decide_True.
  - by apply progress.
Qed.

Lemma Wait_does_not_panic_witness :
  admits no_reuse no_reuse_example (start context.Background) = true
  /\ run no_reuse_example (start context.Background)
     = Some (after no_reuse_example context.Background)
  /\ panicked (after no_reuse_example context.Background) = false
  /\ step (CallWait None) (after no_reuse_example context.Background)
     = Some (after no_reuse_example context.Background).
Proof.
  assert (admits no_reuse no_reuse_example (start context.Background) = true)
    as H1 by (vm_compute; reflexivity).
  assert (run no_reuse_example (start context.Background)
          = Some (after no_reuse_example context.Background)) as H2
    by (vm_compute; reflexivity).
  assert (Wait (grp (after no_reuse_example context.Background)) = Some None)
    as H3 by (vm_compute; reflexivity).
  split; [exact H1|]. split; [exact H2|].
  destruct (Wait_does_not_panic context.Background no_reuse_example
              (after no_reuse_example context.Background) H1 H2)
    as (H4 & H5 & _).
  split; [exact H4|exact (H5 None H3)].
Defined.

Section parent_cancellation.

Implicit Types (w : World) (ev : event) (tr : list event).

(** The [g.errored(ErrorParentContextCanceled)] of [wait] never writes the
    cause: it runs only after the context is done. *)
Lemma WaitErrored_writes_nothing parent tr w w' :
  run tr (start parent) = Some w -> step WaitErrored w = Some w' ->
  ctx (grp w') = ctx (grp w).
Proof.
  intros E E1. pose proof (reachable_consistent _ _ _ E) as [Hc Hw Ho Hx Hp].
  unfold step, wait in E1. destruct (panicked w); [done|].
  destruct (coordinator w); simplify_eq. simpl.
  destruct Hp as (_ & _ & HD). by apply errored_idle.
Qed.

Lemma parentCancel_latch e cs g :
  context.err (ctxParent g) = None -> context.err (ctx g) = None ->
  context.Cause (ctx (parentCancel e cs g)) = Some (default e cs).
Proof.
  intros H1 H2. unfold parentCancel. simpl.
  rewrite (cancel_fresh _ _ _ H1). unfold context.propagateCancel. simpl.
  rewrite (cancel_fresh _ _ _ H2). simpl. by destruct cs.
Qed.

End parent_cancellation.

(** C6, what the code does.  When the parent of a group is cancelled, with
    error [e] and cause [cs], in a reachable state in which the parent is
    live, no cause is latched and [wait] has not returned: the cause latched
    is the parent's own, [default e cs]; it is what Wait returns in every
    schedule that follows, and [wait] can return it at once.  So Wait
    returns [ErrorParentContextCanceled] only if that is the parent's own
    cause; for a parent made by [context.WithCancel] it returns
    [context.Canceled]. *)
Theorem parent_cancellation_returns_the_parent_cause parent tr w e cs :
  run tr (start parent) = Some w -> panicked w = false ->
  context.err (ctxParent (grp w)) = None ->
  context.Cause (ctx (grp w)) = None ->
  Wait (grp w) = None ->
  exists w1,
    step (ParentCancel e cs) w = Some w1
    /\ context.Cause (ctx (grp w1)) = Some (default e cs)
    /\ (forall tr' w' v, run tr' w1 = Some w' -> Wait (grp w') = Some v ->
          v = Some (default e cs))
    /\ (exists w', run (finish_wait w1) w1 = Some w'
          /\ Wait (grp w') = Some (Some (default e cs)))
    /\ (default e cs <> ErrorParentContextCanceled ->
        forall tr' w', run tr' w1 = Some w' ->
          Wait (grp w') <> Some (Some ErrorParentContextCanceled)).
Proof.
  intros E Ha Hlive Hnone HW. pose proof (reachable_consistent _ _ _ E) as Hc.
  destruct (no_cause_fresh _ Hc Hnone) as [_ Herr].
  assert (step (ParentCancel e cs) w
          = Some (with_grp (parentCancel e cs (grp w)) w)) as E1
    by (unfold step; by rewrite Ha).
  pose proof (consistent_step _ _ _ Hc E1) as Hc1.
  pose proof (parentCancel_latch e cs _ Hlive Herr) as Hcause.
  destruct (latched_resolution (with_grp (parentCancel e cs (grp w)) w)
              (default e cs)) as (H1 & w' & H2 & H3 & _); try done.
  eexists. split; [done|]. split; [done|]. split; [done|].
  split; [by exists w'|].
  intros Hne tr' w'' E' Hv. apply (H1 _ _ _ E') in Hv. congruence.
Qed.

Lemma parent_cancellation_returns_the_parent_cause_witness :
  run [CallCo (fun _ => None)] (start context.Background)
  = Some (after [CallCo (fun _ => None)] context.Background)
  /\ run parent_cancelled_later (start context.Background)
     = Some (after parent_cancelled_later context.Background)
  /\ Wait (grp (after parent_cancelled_later context.Background))
     = Some (Some Canceled)
  /\ Wait (grp (after parent_cancelled_later context.Background))
     <> Some (Some ErrorParentContextCanceled).
Proof.
  assert (run parent_cancelled_later (start context.Background)
          = Some (after parent_cancelled_later context.Background)) as H2
    by (vm_compute; reflexivity).
  split; [reflexivity|]. split; [exact H2|]. split; [vm_compute; reflexivity|].
  destruct (parent_cancellation_returns_the_parent_cause context.Background
              [CallCo (fun _ => None)]
              (after [CallCo (fun _ => None)] context.Background)
              Canceled None eq_refl eq_refl eq_refl eq_refl eq_refl)
    as (w1 & H3 & _ & _ & _ & H4).
  apply (H4 ltac:(discriminate)
           [WaitEnter; SelectDone; WaitErrored; WaitReturn; CallWait (Some Canceled)]).
  injection H3 as <-. vm_compute. reflexivity.
Defined.

(** C8, what the code does.  A group derived from a parent that is
    cancelled already starts with its context done and the parent's cause
    latched.  Whatever the schedule, that cause is the only value Wait
    returns: never nil, and [ErrorParentContextCanceled] only if the parent
    holds it.  [wait] returns it through either branch of its select
    (through [<-g.ctx.Done()] in four steps of its own, through [<-ch] in
    four steps of its own and of the watcher), and it is never stuck. *)
Theorem Wait_under_a_cancelled_parent parent e :
  context.err parent = Some e ->
  (forall tr w v, run tr (start parent) = Some w -> Wait (grp w) = Some v ->
     v = Some (default e (context.cause parent)))
  /\ (exists w, run by_done (start parent) = Some w
        /\ Wait (grp w) = Some (Some (default e (context.cause parent))))
  /\ (exists w, run by_ch (start parent) = Some w
        /\ Wait (grp w) = Some (Some (default e (context.cause parent))))
  /\ (forall tr w, run tr (start parent) = Some w -> panicked w = false ->
        coordinator w <> NotCalled -> Wait (grp w) = None ->
        exists ev, internal ev = true /\ is_Some (step ev w)).
Proof.
  intros Herr.
  assert (context.Cause (ctx (grp (start parent)))
          = Some (default e (context.cause parent))) as Hcause.
  { simpl. unfold context.WithCancelCause, context.propagateCancel.
    rewrite Herr. reflexivity. }
  pose proof (consistent_start parent) as Hc.
  destruct (latched_resolution (start parent) _ Hc eq_refl eq_refl Hcause)
    as (H1 & w' & H2 & H3 & _).
  split; [done|]. split; [by exists w'|]. split.
  - destruct parent as [pe pc]. simpl in *. subst pe.
    eexists. split; [reflexivity|]. simpl. by destruct pc.
  - intros tr w E Ha. apply progress; [|done].
    by eapply reachable_consistent.
Qed.

Lemma Wait_under_a_cancelled_parent_witness :
  context.err cancelled_parent = Some Canceled
  /\ (forall tr w v, run tr (start cancelled_parent) = Some w ->
        Wait (grp w) = Some v -> v = Some Canceled)
  /\ Wait (grp (after by_done cancelled_parent)) = Some (Some Canceled)
  /\ Wait (grp (after by_ch cancelled_parent)) = Some (Some Canceled).
Proof.
  split; [reflexivity|].
  split; [exact (proj1 (Wait_under_a_cancelled_parent cancelled_parent Canceled
                          eq_refl))|].
  split; reflexivity.
Defined.

(** ** Further properties of the package *)

Section offers.

Implicit Types (w : World) (ev : event) (tr : list event) (g : Group).

Lemma errored_cause e g c :
  context.Cause (ctx (errored e g)) = Some c ->
  context.Cause (ctx g) = Some c \/ c = e.
Proof.
  unfold errored, cancelCause, context.cancel. destruct (errOnce g); [by left|].
  simpl. destruct (context.err (ctx g)); [by left|].
  simpl. intros; simplify_eq. by right.
Qed.

Lemma report_cause r g c :
  context.Cause (ctx (report r g)) = Some c ->
  context.Cause (ctx g) = Some c \/ r = Some c.
Proof.
  destruct r as [e|]; simpl; [|by left].
  intros [H| ->]%errored_cause; auto.
Qed.

Lemma parentCancel_cause e cs g c :
  (context.Done (ctxParent g) = true -> context.Done (ctx g) = true) ->
  context.Cause (ctx (parentCancel e cs g)) = Some c ->
  context.Cause (ctx g) = Some c \/ c = default e cs.
Proof.
  intros Hl. destruct (context.Done (ctx g)) eqn:HD.
  { rewrite parentCancel_idle by done. by left. }
  destruct (context.Done (ctxParent g)) eqn:HP; [by specialize (Hl eq_refl)|].
  apply Done_false in HD, HP. rewrite parentCancel_latch by done.
  intros; simplify_eq. by right.
Qed.

Lemma task_return_grp i w w' :
  task_return i w = Some w' -> grp w' = report (returns w i) (grp w).
Proof.
  unfold task_return, returns.
  by destruct (pool w !! i) as [[t|t| |]|]; intros; simplify_eq.
Qed.

(** What a step does to the group: nothing, or to the WaitGroup only, or
    to the cell of the OnceValue only, or it is one of the writers of the
    cause. *)
Lemma step_grp ev w w' :
  step ev w = Some w' ->
  (ctx (grp w') = ctx (grp w) /\ ctxParent (grp w') = ctxParent (grp w)
   /\ errOnce (grp w') = errOnce (grp w))
  \/ (ev = CallCancel /\ grp w' = errored ErrorGroupCanceled (grp w))
  \/ (exists e cs, ev = ParentCancel e cs /\ grp w' = parentCancel e cs (grp w))
  \/ (exists i, ev = TaskReturn i /\ grp w' = report (returns w i) (grp w))
  \/ (ev = WaitErrored /\ coordinator w = CaseDone
      /\ grp w' = errored ErrorParentContextCanceled (grp w)).
Proof.
  unfold step. destruct (panicked w); [done|].
  destruct ev; intros E; simplify_eq.
  - left. unfold Go, spawn. by destruct (sync.Add 1 (wg (grp w))).
  - left. unfold Co, spawn. by destruct (sync.Add 1 (wg (grp w))).
  - right. by left.
  - right. right. left. by exists e, cs.
  - right. right. right. left. exists i. split; [done|]. by apply task_return_grp.
  - left. unfold task_done, done in E.
    destruct (pool w !! i) as [[t|t| |]|]; try done.
    by destruct (sync.Add (-1) (wg (grp w))); simplify_eq.
  - left. unfold wait in E. by destruct (coordinator w); simplify_eq.
  - left. unfold watch in E. destruct (watcher w); try done.
    by destruct (sync.Wait_enter (wg (grp w))); simplify_eq.
  - left. unfold watch in E. destruct (watcher w); try done.
    by destruct (sync.Wait_wake (wg (grp w))) as [[x|]|]; simplify_eq.
  - left. unfold wait in E. destruct (coordinator w); try done.
    by destruct (context.Done (ctx (grp w))); simplify_eq.
  - left. unfold wait in E. destruct (coordinator w); try done.
    by destruct (watcher w); simplify_eq.
  - right. right. right. right. unfold wait in E.
    by destruct (coordinator w); simplify_eq.
  - left. unfold wait in E. by destruct (coordinator w); simplify_eq.
  - left. by case_decide; simplify_eq.
Qed.

Lemma errored_ctxParent e g : ctxParent (errored e g) = ctxParent g.
Proof. unfold errored. by destruct (errOnce g). Qed.

Lemma report_ctxParent r g : ctxParent (report r g) = ctxParent g.
Proof. destruct r; simpl; [apply errored_ctxParent|done]. Qed.

Lemma errored_Done_mono e g :
  context.Done (ctx g) = true -> context.Done (ctx (errored e g)) = true.
Proof. intros H. by rewrite errored_idle. Qed.

Lemma report_Done_mono r g :
  context.Done (ctx g) = true -> context.Done (ctx (report r g)) = true.
Proof. intros H. by rewrite report_idle. Qed.

Lemma linked_start parent : linked (start parent).
Proof.
  unfold linked, start, NewWithContext, context.WithCancelCause,
    context.propagateCancel, context.Done. simpl.
  destruct (context.err parent); [|done]. intros _. apply cancel_Done.
Qed.

Lemma linked_step ev w w' :
  linked w -> step ev w = Some w' -> linked w'.
Proof.
  unfold linked. intros Hl E.
  destruct (step_grp _ _ _ E)
    as [(E1 & E2 & _)|[(_ & ->)|[(e & cs & _ & ->)|[(i & _ & ->)|(_ & _ & ->)]]]].
  - by rewrite E1, E2.
  - rewrite errored_ctxParent. auto using errored_Done_mono.
  - intros _. apply parentCancel_Done.
  - rewrite report_ctxParent. auto using report_Done_mono.
  - rewrite errored_ctxParent. auto using errored_Done_mono.
Qed.

(** The causes a schedule can latch are the ones it offers. *)
Lemma offered_step (P : error_value -> bool) ev w w' :
  consistent w -> linked w ->
  (forall c, context.Cause (ctx (grp w)) = Some c -> P c = true) ->
  offers_only P w ev = true -> step ev w = Some w' ->
  forall c, context.Cause (ctx (grp w')) = Some c -> P c = true.
Proof.
  intros Hc Hl HP Hok E c Hcause. unfold offers_only, offers in Hok.
  destruct (step_grp _ _ _ E)
    as [(E1 & _)|[(-> & Eg)|[(e & cs & -> & Eg)|[(i & -> & Eg)|(_ & EC & Eg)]]]].
  - apply HP. by rewrite <- E1.
  - rewrite Eg in Hcause. apply errored_cause in Hcause as [H| ->]; auto.
  - rewrite Eg in Hcause. apply parentCancel_cause in Hcause as [H| ->]; auto.
  - rewrite Eg in Hcause. apply report_cause in Hcause as [H|H]; [auto|].
    by rewrite H in Hok.
  - destruct Hc as [_ _ _ _ Hp]. rewrite EC in Hp. destruct Hp as (_ & _ & HD).
    apply HP. rewrite Eg in Hcause. by rewrite errored_idle in Hcause.
Qed.

Lemma offered_run (P : error_value -> bool) tr w w' :
  consistent w -> linked w ->
  (forall c, context.Cause (ctx (grp w)) = Some c -> P c = true) ->
  admits (offers_only P) tr w = true -> run tr w = Some w' ->
  forall c, context.Cause (ctx (grp w')) = Some c -> P c = true.
Proof.
  intros Hc Hl HP Hok E.
  apply (run_invariant (offers_only P)
           (fun w => linked w
              /\ forall c, context.Cause (ctx (grp w)) = Some c -> P c = true))
    with (w := w) (w' := w') (tr := tr); try done.
  intros w0 ev w1 Hc0 [Hl0 HP0] Hok0 E0. split.
  - eauto using linked_step.
  - eauto using offered_step.
Qed.

Lemma Wait_value_cause w c :
  consistent w -> Wait (grp w) = Some (Some c) ->
  context.Cause (ctx (grp w)) = Some c.
Proof.
  intros Hc H. pose proof (cached_Returned _ _ Hc H) as EC.
  destruct Hc as [_ _ _ _ Hp]. rewrite EC in Hp.
  destruct Hp as (_ & v & Hv & Hcause). rewrite H in Hv. by simplify_eq.
Qed.

Lemma outstanding_exited (p : list goroutine) :
  Forall (fun r => r = Exited) p -> outstanding p = 0.
Proof. induction 1 as [|r p -> _ IH]; simpl; lia. Qed.

End offers.

(** X1.  The counter of the WaitGroup counts the goroutines that have not
    run their [g.done()].  In every reachable state it equals the number of
    goroutines of the pool that have not exited, so it is never negative and
    is zero exactly when all of them have exited; and a [g.done()] that runs
    never panics: it lowers the counter by one and its goroutine is gone. *)
Theorem the_counter_counts_outstanding_work parent tr w :
  run tr (start parent) = Some w ->
  sync.counter (wg (grp w)) = outstanding (pool w)
  /\ 0 <= sync.counter (wg (grp w))
  /\ (sync.counter (wg (grp w)) = 0 <-> Forall (fun r => r = Exited) (pool w))
  /\ (forall i w', step (TaskDone i) w = Some w' ->
        panicked w' = false
        /\ sync.counter (wg (grp w')) = sync.counter (wg (grp w)) - 1
        /\ pool w' !! i = Some Exited).
Proof.
  intros E. pose proof (reachable_consistent _ _ _ E) as Hc.
  pose proof Hc as [Hcount _ _ _ _].
  pose proof (outstanding_nonneg (pool w)) as Hn.
  split; [done|]. split; [lia|]. split.
  - rewrite Hcount. split; [apply outstanding_zero|apply outstanding_exited].
  - intros i w' E1. pose proof (step_alive _ _ _ E1) as Ha.
    unfold step in E1. rewrite Ha in E1.
    split; [by eapply task_done_alive|].
    unfold task_done, done in E1.
    destruct (pool w !! i) as [[t|t| |]|] eqn:EP; try done.
    pose proof (outstanding_lookup _ _ _ EP) as Hl. simpl in Hl.
    pose proof (lookup_lt_Some _ _ _ EP) as Hlt.
    destruct (Add_minus_ok (wg (grp w))) as [y Hy]; [lia|].
    rewrite Hy in E1. simplify_eq. simpl.
    apply Add_minus in Hy as (-> & _). split; [done|].
    by apply list_lookup_insert_eq.
Qed.

Lemma the_counter_counts_outstanding_work_witness :
  run (two_failing ++ [TaskReturn 0]) (start context.Background)
  = Some (after (two_failing ++ [TaskReturn 0]) context.Background)
  /\ sync.counter
       (wg (grp (after (two_failing ++ [TaskReturn 0]) context.Background))) = 2
  /\ forall w',
       step (TaskDone 0) (after (two_failing ++ [TaskReturn 0]) context.Background)
       = Some w' ->
       panicked w' = false /\ sync.counter (wg (grp w')) = 1.
Proof.
  split; [reflexivity|]. split; [reflexivity|].
  intros w' E.
  destruct (the_counter_counts_outstanding_work context.Background
              (two_failing ++ [TaskReturn 0])
              (after (two_failing ++ [TaskReturn 0]) context.Background) eq_refl)
    as (_ & _ & _ & H).
  destruct (H 0%nat w' E) as (H1 & H2 & _).
  split; [exact H1|exact H2].
Defined.

(** X2.  Whatever is offered to the latch cancels the context for good.
    In every reachable state, the step of a Cancel, of a cancellation of
    the parent or of a task that returns an error leaves the context of the
    group done, whoever wins the latch; and the context is the same in
    every state that follows, so a coordinated task that watches
    [ctx.Done()] sees the cancellation and keeps seeing the same cause. *)
Theorem an_offer_cancels_the_context parent tr w ev e w1 :
  run tr (start parent) = Some w -> offers w ev = Some e ->
  step ev w = Some w1 ->
  context.Done (ctx (grp w1)) = true
  /\ forall tr' w', run tr' w1 = Some w' ->
       context.Done (ctx (grp w')) = true /\ ctx (grp w') = ctx (grp w1).
Proof.
  intros E Hoff E1. pose proof (reachable_consistent _ _ _ E) as Hc.
  pose proof Hc as [_ _ Ho _ _].
  assert (context.Done (ctx (grp w1)) = true) as HD.
  { pose proof (step_alive _ _ _ E1) as Ha. unfold step in E1. rewrite Ha in E1.
    destruct ev; try done; simpl in Hoff; simplify_eq.
    - simpl. by apply errored_Done.
    - simpl. apply parentCancel_Done.
    - apply task_return_grp in E1 as ->. rewrite Hoff. simpl.
      by apply errored_Done. }
  split; [done|]. intros tr' w' E'.
  pose proof (latched_run _ _ _ HD E') as ->. done.
Qed.

Lemma an_offer_cancels_the_context_witness :
  run one_coordinated (start context.Background)
  = Some (after one_coordinated context.Background)
  /\ context.Done (ctx (grp (after one_coordinated context.Background))) = false
  /\ forall w1,
       step CallCancel (after one_coordinated context.Background) = Some w1 ->
       context.Done (ctx (grp w1)) = true.
Proof.
  split; [reflexivity|]. split; [reflexivity|].
  intros w1 E.
  exact (proj1 (an_offer_cancels_the_context context.Background one_coordinated
                  (after one_coordinated context.Background) CallCancel
                  ErrorGroupCanceled w1 eq_refl eq_refl E)).
Defined.

(** X3.  The error Wait returns is the cause the context holds.  Once Wait
    has returned a non-nil error [c], [context.Cause] of the group's
    context, which is what a coordinated task reads, is [c] as well, in
    that state and in every state that follows, and Wait keeps returning
    [c]. *)
Theorem Wait_agrees_with_the_context parent tr w c :
  run tr (start parent) = Some w -> Wait (grp w) = Some (Some c) ->
  forall tr' w', run tr' w = Some w' ->
    context.Cause (ctx (grp w')) = Some c /\ Wait (grp w') = Some (Some c).
Proof.
  intros E H tr' w' E'. pose proof (reachable_consistent _ _ _ E) as Hc.
  pose proof (Wait_value_cause _ _ Hc H) as Hcause.
  pose proof (cause_Done _ _ Hc Hcause) as HD.
  split; [by rewrite (latched_run _ _ _ HD E')|].
  eauto using cached_run.
Qed.

Lemma Wait_agrees_with_the_context_witness :
  run (cancelled_while_waiting ++ by_done_rest) (start context.Background)
  = Some (after (cancelled_while_waiting ++ by_done_rest) context.Background)
  /\ Wait (grp (after (cancelled_while_waiting ++ by_done_rest) context.Background))
     = Some (Some ErrorGroupCanceled)
  /\ forall w',
       run [TaskReturn 0; TaskDone 0]
         (after (cancelled_while_waiting ++ by_done_rest) context.Background)
       = Some w' ->
       context.Cause (ctx (grp w')) = Some ErrorGroupCanceled.
Proof.
  split; [reflexivity|]. split; [reflexivity|].
  intros w' E.
  exact (proj1 (Wait_agrees_with_the_context context.Background
                  (cancelled_while_waiting ++ by_done_rest)
                  (after (cancelled_while_waiting ++ by_done_rest)
                     context.Background)
                  ErrorGroupCanceled eq_refl eq_refl _ w' E)).
Defined.

(** X4.  Wait returns only what was offered.  Let [P] hold of the cause a
    cancelled parent hands to the new group, and of every error the
    schedule offers to the latch: [ErrorGroupCanceled] if Cancel is called,
    the parent's cause if the parent is cancelled, the error of every task
    that returns one.  Then [P] holds of the cause of the context, of every
    non-nil value stored for Wait and of every non-nil value a call of Wait
    has returned: the package adds no error of its own. *)
Theorem Wait_returns_only_offered_errors (P : error_value -> bool) parent tr w :
  (forall c, context.Cause (context.WithCancelCause parent) = Some c ->
             P c = true) ->
  admits (offers_only P) tr (start parent) = true ->
  run tr (start parent) = Some w ->
  (forall c, context.Cause (ctx (grp w)) = Some c -> P c = true)
  /\ (forall c, Wait (grp w) = Some (Some c) -> P c = true)
  /\ (forall c, Some c ∈ observed tr -> P c = true).
Proof.
  intros HP Hok E. pose proof (reachable_consistent _ _ _ E) as Hc.
  assert (forall c, context.Cause (ctx (grp w)) = Some c -> P c = true) as H
    by exact (offered_run P tr (start parent) w (consistent_start parent)
                (linked_start parent) HP Hok E).
  split; [done|].
  assert (forall c, Wait (grp w) = Some (Some c) -> P c = true) as H'
    by (intros c Hv; eauto using Wait_value_cause).
  split; [done|]. intros c Hobs. apply H'.
  exact (observed_cached tr (start parent) w (Some c) (consistent_start parent)
           E Hobs).
Qed.

Lemma Wait_returns_only_offered_errors_witness :
  admits (offers_only is_ErrorGroupCanceled) (example_Co ++ example_Co_rest)
    (start context.Background) = true
  /\ run (example_Co ++ example_Co_rest) (start context.Background)
     = Some (after (example_Co ++ example_Co_rest) context.Background)
  /\ observed (example_Co ++ example_Co_rest) = [Some ErrorGroupCanceled]
  /\ forall c, Some c ∈ observed (example_Co ++ example_Co_rest) ->
               is_ErrorGroupCanceled c = true.
Proof.
  assert (admits (offers_only is_ErrorGroupCanceled)
            (example_Co ++ example_Co_rest) (start context.Background) = true)
    as H1 by (vm_compute; reflexivity).
  assert (run (example_Co ++ example_Co_rest) (start context.Background)
          = Some (after (example_Co ++ example_Co_rest) context.Background))
    as H2 by (vm_compute; reflexivity).
  split; [exact H1|]. split; [exact H2|]. split; [reflexivity|].
  apply (Wait_returns_only_offered_errors is_ErrorGroupCanceled
           context.Background (example_Co ++ example_Co_rest)
           (after (example_Co ++ example_Co_rest) context.Background));
    [discriminate|exact H1|exact H2].
Defined.

(** X5.  Wait never returns [ErrorParentContextCanceled] of its own accord.
    If the parent does not hand that value to the group as its cause, at
    construction or when it is cancelled, and no task returns it, then no
    schedule latches it: it is not the cause of the context, not the value
    stored for Wait and not a value a call of Wait has returned.  The
    [g.errored(ErrorParentContextCanceled)] of [wait] never takes effect. *)
Theorem Wait_never_returns_the_parent_sentinel parent tr w :
  context.Cause (context.WithCancelCause parent)
  <> Some ErrorParentContextCanceled ->
  admits (offers_only not_sentinel) tr (start parent) = true ->
  run tr (start parent) = Some w ->
  context.Cause (ctx (grp w)) <> Some ErrorParentContextCanceled
  /\ Wait (grp w) <> Some (Some ErrorParentContextCanceled)
  /\ Some ErrorParentContextCanceled ∉ observed tr.
Proof.
  intros HP Hok E. pose proof (reachable_consistent _ _ _ E) as Hc.
  assert (context.Cause (ctx (grp w)) <> Some ErrorParentContextCanceled) as H.
  { intros Hcause.
    assert (not_sentinel ErrorParentContextCanceled = true) as Hn; [|done].
    refine (offered_run not_sentinel tr (start parent) w (consistent_start parent)
              (linked_start parent) _ Hok E _ Hcause).
    intros c Hc0. unfold not_sentinel. apply negb_true_iff, bool_decide_eq_false.
    simpl in Hc0. congruence. }
  split; [done|].
  assert (Wait (grp w) <> Some (Some ErrorParentContextCanceled)) as H'
    by (intros Hv; eauto using Wait_value_cause).
  split; [done|]. intros Hobs. apply H'.
  exact (observed_cached tr (start parent) w (Some ErrorParentContextCanceled)
           (consistent_start parent) E Hobs).
Qed.

Lemma Wait_never_returns_the_parent_sentinel_witness :
  admits (offers_only not_sentinel) parent_cancelled_later
    (start context.Background) = true
  /\ run parent_cancelled_later (start context.Background)
     = Some (after parent_cancelled_later context.Background)
  /\ Wait (grp (after parent_cancelled_later context.Background))
     <> Some (Some ErrorParentContextCanceled).
Proof.
  assert (admits (offers_only not_sentinel) parent_cancelled_later
            (start context.Background) = true) as H1
    by (vm_compute; reflexivity).
  assert (run parent_cancelled_later (start context.Background)
          = Some (after parent_cancelled_later context.Background)) as H2
    by (vm_compute; reflexivity).
  split; [exact H1|]. split; [exact H2|].
  refine (proj1 (proj2 (Wait_never_returns_the_parent_sentinel
                          context.Background parent_cancelled_later
                          (after parent_cancelled_later context.Background)
                          _ H1 H2))).
  discriminate.
Defined.

(** X6.  Wait returns nil when nothing is offered.  With a live parent, in
    every schedule in which there is no Cancel and no cancellation of the
    parent and every task that returns returns nil (tasks of either kind,
    scheduled at any time), the context is never done and nil is the only
    value Wait stores or returns. *)
Theorem Wait_returns_nil_when_nothing_is_offered parent tr w :
  context.err parent = None ->
  admits (offers_only no_error) tr (start parent) = true ->
  run tr (start parent) = Some w ->
  context.Done (ctx (grp w)) = false
  /\ (forall v, Wait (grp w) = Some v -> v = None)
  /\ (forall v, v ∈ observed tr -> v = None).
Proof.
  intros Hlive Hok E. pose proof (reachable_consistent _ _ _ E) as Hc.
  assert (forall c, context.Cause (ctx (grp w)) = Some c -> no_error c = true) as H.
  { refine (offered_run no_error tr (start parent) w (consistent_start parent)
              (linked_start parent) _ Hok E).
    simpl. unfold context.WithCancelCause, context.propagateCancel.
    rewrite Hlive. done. }
  assert (context.Done (ctx (grp w)) = false) as HD.
  { destruct (context.Done (ctx (grp w))) eqn:HD; [|done].
    destruct (Done_cause _ Hc HD) as [c Hcause]. by apply H in Hcause. }
  split; [done|].
  assert (forall v, Wait (grp w) = Some v -> v = None) as H'.
  { intros [c|] Hv; [|done]. by apply Wait_value_cause, H in Hv. }
  split; [done|]. intros v Hobs. apply H'.
  exact (observed_cached tr (start parent) w v (consistent_start parent) E Hobs).
Qed.

Lemma Wait_returns_nil_when_nothing_is_offered_witness :
  context.err context.Background = None
  /\ admits (offers_only no_error) mixed_success (start context.Background) = true
  /\ run mixed_success (start context.Background)
     = Some (after mixed_success context.Background)
  /\ observed mixed_success = [None]
  /\ forall v, Wait (grp (after mixed_success context.Background)) = Some v ->
               v = None.
Proof.
  assert (admits (offers_only no_error) mixed_success
            (start context.Background) = true) as H1
    by (vm_compute; reflexivity).
  assert (run mixed_success (start context.Background)
          = Some (after mixed_success context.Background)) as H2
    by (vm_compute; reflexivity).
  split; [reflexivity|]. split; [exact H1|]. split; [exact H2|].
  split; [reflexivity|].
  exact (proj1 (proj2 (Wait_returns_nil_when_nothing_is_offered
                         context.Background mixed_success
                         (after mixed_success context.Background)
                         eq_refl H1 H2))).
Defined.

Section completion_order.

Implicit Types (w : World) (ev : event) (tr : list event).

Lemma all_exited_lookup (p : list goroutine) n i :
  outstanding p = 0 -> (n <= length p)%nat -> (i < n)%nat ->
  p !! i = Some Exited.
Proof.
  intros H Hn Hi. apply outstanding_zero in H.
  destruct (lookup_lt_is_Some_2 p i) as [r Hr]; [lia|].
  by rewrite (Forall_lookup_1 _ _ _ _ H Hr) in Hr.
Qed.

Lemma completed_step n ev w w' :
  consistent w -> completed n w -> step ev w = Some w' -> completed n w'.
Proof.
  intros [Hc _ _ _ _] [Hn Hx]. unfold step. destruct (panicked w); [done|].
  assert (completed n w) as Hkeep by by split.
  assert (forall r, completed n (spawn r w)) as Hspawn.
  { intros r. unfold spawn. destruct (sync.Add 1 (wg (grp w))); [|done].
    split; simpl.
    - rewrite length_app. lia.
    - intros Hp i Hi. rewrite lookup_app_l by lia. auto. }
  assert (forall i0 r r' g, pool w !! i0 = Some r -> r <> Exited ->
            completed n (with_pool (<[i0:=r']> (pool w)) (with_grp g w))) as Hins.
  { intros i0 r r' g Hr Hne. split; simpl.
    - by rewrite length_insert.
    - intros Hp i Hi. destruct (decide (i = i0)) as [->|Hneq].
      + rewrite (Hx Hp i0 Hi) in Hr. by simplify_eq.
      + rewrite list_lookup_insert_ne by done. auto. }
  assert (sync.counter (wg (grp w)) = 0 ->
          forall i, (i < n)%nat -> pool w !! i = Some Exited) as Hzero.
  { intros E0 i Hi. apply (all_exited_lookup _ n); [lia|done|done]. }
  destruct ev; intros E; simplify_eq.
  - apply Hspawn.
  - apply Hspawn.
  - done.
  - done.
  - unfold task_return in E.
    destruct (pool w !! i) as [[t|t| |]|] eqn:EP; simplify_eq;
      by eapply Hins.
  - unfold task_done in E.
    destruct (pool w !! i) as [[t|t| |]|] eqn:EP; try done.
    destruct (done (grp w)); simplify_eq; [by eapply Hins|done].
  - unfold wait in E. destruct (coordinator w); simplify_eq.
    split; simpl; done.
  - unfold watch in E. destruct (watcher w); try done.
    unfold sync.Wait_enter in E.
    destruct (sync.counter (wg (grp w)) =? 0) eqn:E0; simpl in E; simplify_eq;
      (split; simpl; [done|]); [|done].
    intros _. apply Hzero. lia.
  - unfold watch in E. destruct (watcher w) eqn:EW; try done.
    unfold sync.Wait_wake in E. destruct (sync.sema (wg (grp w))); [done|].
    destruct ((sync.counter (wg (grp w)) =? 0) && (sync.waiters (wg (grp w)) =? 0)%nat)
      eqn:E0; simplify_eq; [|split; simpl; rewrite ?EW; done].
    apply andb_true_iff in E0 as [E0 _].
    split; simpl; [done|]. intros _. apply Hzero. lia.
  - unfold wait in E. destruct (coordinator w); try done.
    by destruct (context.Done (ctx (grp w))); simplify_eq.
  - unfold wait in E. destruct (coordinator w); try done.
    destruct (watcher w) eqn:EW; simplify_eq.
    split; simpl; [done|]. intros _. by apply Hx.
  - unfold wait in E. by destruct (coordinator w); simplify_eq.
  - unfold wait in E. by destruct (coordinator w); simplify_eq.
  - by case_decide; simplify_eq.
Qed.

Lemma completed_run n tr w w' :
  consistent w -> completed n w -> run tr w = Some w' -> completed n w'.
Proof.
  revert w. induction tr as [|ev tr IH]; simpl; intros w Hc Hn E;
    [by simplify_eq|].
  destruct (step ev w) as [w1|] eqn:E1; [|done].
  eauto using consistent_step, completed_step.
Qed.

Lemma nil_passed w :
  consistent w -> Wait (grp w) = Some None -> watcher w = Sent.
Proof.
  intros Hc H. pose proof (cached_Returned _ _ Hc H) as EC.
  destruct Hc as [_ _ _ _ Hp]. rewrite EC in Hp.
  destruct Hp as (_ & v & Hv & Hs). rewrite H in Hv. by simplify_eq.
Qed.

End completion_order.

(** X7.  Wait returns nil only after the work is done.  In every schedule,
    with tasks of either kind, failures and cancellations included: if Wait
    has returned nil, every goroutine that was in the pool when Wait had
    not been called yet has run its [g.done()] and is gone.  A nil from
    Wait is never early. *)
Theorem a_nil_Wait_is_never_early parent tr1 w1 tr2 w :
  run tr1 (start parent) = Some w1 -> coordinator w1 = NotCalled ->
  run tr2 w1 = Some w -> Wait (grp w) = Some None ->
  (length (pool w1) <= length (pool w))%nat
  /\ forall i, (i < length (pool w1))%nat -> pool w !! i = Some Exited.
Proof.
  intros E1 EC E2 H. pose proof (reachable_consistent _ _ _ E1) as Hc1.
  pose proof (consistent_run _ _ _ Hc1 E2) as Hc.
  assert (completed (length (pool w1)) w1) as H0.
  { split; [done|]. destruct Hc1 as [_ _ _ _ Hp]. rewrite EC in Hp.
    destruct Hp as [-> _]. done. }
  destruct (completed_run _ _ _ _ Hc1 H0 E2) as [Hn Hx].
  split; [done|]. apply Hx. by rewrite (nil_passed _ Hc H).
Qed.

Lemma a_nil_Wait_is_never_early_witness :
  run example_Co (start context.Background)
  = Some (after example_Co context.Background)
  /\ coordinator (after example_Co context.Background) = NotCalled
  /\ length (pool (after example_Co context.Background)) = 2%nat
  /\ run mixed_success_rest (after example_Co context.Background)
     = Some (after mixed_success context.Background)
  /\ Wait (grp (after mixed_success context.Background)) = Some None
  /\ forall i, (i < 2)%nat ->
       pool (after mixed_success context.Background) !! i = Some Exited.
Proof.
  assert (run mixed_success_rest (after example_Co context.Background)
          = Some (after mixed_success context.Background)) as H2
    by (vm_compute; reflexivity).
  split; [reflexivity|]. split; [reflexivity|]. split; [reflexivity|].
  split; [exact H2|]. split; [reflexivity|].
  exact (proj2 (a_nil_Wait_is_never_early context.Background example_Co
                  (after example_Co context.Background) mixed_success_rest
                  (after mixed_success context.Background)
                  eq_refl eq_refl H2 eq_refl)).
Defined.

Section waiting_tasks.

Implicit Types (w : World) (ev : event) (tr : list event).

Lemma Done_step ev w w' :
  context.Done (ctx (grp w)) = true -> step ev w = Some w' ->
  context.Done (ctx (grp w')) = true.
Proof. intros H E. by rewrite (latched_step _ _ _ H E). Qed.

Lemma running_counts w i r :
  consistent w -> pool w !! i = Some r -> running r ->
  0 < sync.counter (wg (grp w)).
Proof.
  intros [Hc _ _ _ _] H Hr. apply outstanding_lookup in H.
  destruct r; simpl in *; try done; lia.
Qed.

Lemma held_step i r ev w w' :
  running r ->
  consistent w -> held i r w -> honours i w ev = true ->
  step ev w = Some w' -> held i r w'.
Proof.
  intros Hrun Hc [Hr Hp Hv] Hok E.
  pose proof (fun H => Done_step _ _ _ H E) as Hmono.
  assert (Wait (grp w') <> Some None) as Hv'.
  { pose proof (Wait_step _ _ _ E) as HW.
    destruct (is_WaitReturn ev); [|by rewrite HW].
    destruct HW as [EC HW]. rewrite HW. intros ?; simplify_eq.
    assert (context.Done (ctx (grp w)) = true) as HD.
    { pose proof Hc as [_ _ _ _ Hpc]. rewrite EC in Hpc.
      destruct Hpc as (_ & [[_ HD]|HS]); [done|]. apply Hp. by rewrite HS. }
    destruct (Done_cause _ Hc HD) as [c Hcause]. congruence. }
  destruct (context.Done (ctx (grp w))) eqn:HD.
  { split; [left; auto|intros _; auto|done]. }
  destruct Hr as [Hr|Hr]; [done|].
  pose proof (running_counts _ _ _ Hc Hr Hrun) as Hpos.
  pose proof (lookup_lt_Some _ _ _ Hr) as Hlt.
  assert (~ passed (watcher w)) as Hnp by (intros Hpass%Hp; done).
  assert (forall w0, pool w0 !! i = Some r -> watcher w0 = watcher w ->
            Wait (grp w0) = Wait (grp w) -> held i r w0) as Hkeep.
  { intros w0 H1 H2 H3. split; [by right|by rewrite H2|by rewrite H3]. }
  assert (forall r0, held i r (spawn r0 w)) as Hspawn.
  { intros r0. unfold spawn. destruct (sync.Add 1 (wg (grp w)));
      apply Hkeep; simpl; try done. by rewrite lookup_app_l. }
  unfold step in E. destruct (panicked w); [done|].
  destruct ev; simplify_eq.
  - apply Hspawn.
  - apply Hspawn.
  - split; [left|intros _|done]; apply (errored_Done ErrorGroupCanceled);
      by destruct Hc.
  - split; [left|intros _|done]; apply parentCancel_Done.
  - simpl in Hok. case_decide as Hi.
    + subst i0. rewrite HD in Hok. simpl in Hok.
      apply bool_decide_eq_true in Hok.
      destruct (returns w i) as [e|] eqn:Eret; [|done].
      apply task_return_grp in E. rewrite Eret in E. simpl in E.
      assert (context.Done (ctx (grp w')) = true) as HD'
        by (rewrite E; apply errored_Done; by destruct Hc).
      split; [by left|done|done].
    + unfold task_return in E.
      destruct (pool w !! i0) as [[t0|t0| |]|] eqn:EP; simplify_eq;
        (apply Hkeep; simpl; [by rewrite list_lookup_insert_ne|done|]);
        by rewrite report_Wait.
  - unfold task_done in E.
    destruct (pool w !! i0) as [[t0|t0| |]|] eqn:EP; try done.
    assert (i0 <> i) by (intros ->; rewrite Hr in EP; by simplify_eq).
    destruct (done (grp w)) as [g|] eqn:Eg; simplify_eq.
    + unfold done in Eg. destruct (sync.Add (-1) (wg (grp w))); simplify_eq.
      apply Hkeep; simpl; [by rewrite list_lookup_insert_ne|done|done].
    + by apply Hkeep.
  - unfold wait in E. destruct (coordinator w) eqn:EC; simplify_eq.
    pose proof Hc as [_ _ _ _ Hpc]. rewrite EC in Hpc. destruct Hpc as [EW _].
    split; simpl; [by right|done|done].
  - unfold watch in E. destruct (watcher w) eqn:EW; try done.
    unfold sync.Wait_enter in E.
    destruct (sync.counter (wg (grp w)) =? 0) eqn:E0; simpl in E; simplify_eq.
    + lia.
    + split; simpl; [by right|done|done].
  - unfold watch in E. destruct (watcher w) eqn:EW; try done.
    unfold sync.Wait_wake in E. destruct (sync.sema (wg (grp w))); [done|].
    destruct ((sync.counter (wg (grp w)) =? 0) && (sync.waiters (wg (grp w)) =? 0)%nat)
      eqn:E0; simplify_eq.
    + apply andb_true_iff in E0 as [E0 _]. lia.
    + by apply Hkeep.
  - unfold wait in E. destruct (coordinator w); try done.
    by rewrite HD in E.
  - unfold wait in E. destruct (coordinator w); try done.
    destruct (watcher w) eqn:EW; simplify_eq; try by destruct Hnp.
  - unfold wait in E. destruct (coordinator w) eqn:EC; simplify_eq.
    destruct Hc as [_ _ _ _ Hpc]. rewrite EC in Hpc.
    destruct Hpc as (_ & _ & ?). congruence.
  - unfold wait in E. destruct (coordinator w); simplify_eq.
    split; simpl; [by right|done|done].
  - case_decide; simplify_eq. by apply Hkeep.
Qed.

Lemma held_run i r tr w w' :
  running r ->
  consistent w -> held i r w -> admits (honours i) tr w = true ->
  run tr w = Some w' -> held i r w'.
Proof.
  intros Hrun. apply (run_invariant (honours i) (held i r)).
  eauto using held_step.
Qed.

Lemma held_start i r w :
  consistent w -> coordinator w = NotCalled -> pool w !! i = Some r ->
  held i r w.
Proof.
  intros [_ _ _ _ Hp] EC Hi. rewrite EC in Hp. destruct Hp as [EW HW].
  split; [by right|by rewrite EW|by rewrite HW].
Qed.

(** A task that is about to fail honours every schedule. *)
Lemma failing_held_run i e tr w w' :
  consistent w -> held i (RunTask (Some e)) w ->
  run tr w = Some w' -> held i (RunTask (Some e)) w'.
Proof.
  revert w. induction tr as [|ev tr IH]; simpl; intros w Hc H E;
    [by simplify_eq|].
  destruct (step ev w) as [w1|] eqn:E1; [|done].
  apply (IH w1); [by eapply consistent_step| |done].
  apply (held_step i (RunTask (Some e)) ev w w1); try done.
  unfold honours. destruct ev; try done. case_decide as Hi; [|done]. subst i0.
  destruct H as [[HD|Hr] _ _]; [by rewrite HD|].
  unfold returns. rewrite Hr. apply orb_true_iff. right.
  by apply bool_decide_eq_true.
Qed.

Lemma abandoned_step ev w w' :
  abandoned w -> step ev w = Some w' -> abandoned w'.
Proof.
  unfold abandoned. intros [Hw Hcoord]. unfold step.
  destruct (panicked w); [done|].
  assert (forall r, watcher (spawn r w) = watcher w
                    /\ coordinator (spawn r w) = coordinator w) as Hspawn.
  { intros r. unfold spawn. by destruct (sync.Add 1 (wg (grp w))). }
  destruct ev; intros E; simplify_eq; unfold Go, Co; simpl; try done.
  - by destruct (Hspawn (RunTask t)) as [-> ->].
  - by destruct (Hspawn (RunCo t)) as [-> ->].
  - unfold task_return in E.
    by destruct (pool w !! i) as [[t|t| |]|]; simplify_eq.
  - unfold task_done in E.
    destruct (pool w !! i) as [[t|t| |]|]; try done.
    by destruct (done (grp w)); simplify_eq.
  - unfold wait in E. by destruct (coordinator w); simplify_eq.
  - unfold watch in E. destruct (watcher w); try done.
    by destruct (sync.Wait_enter (wg (grp w))); simplify_eq.
  - unfold watch in E. destruct (watcher w) eqn:EW; try done.
    destruct (sync.Wait_wake (wg (grp w))) as [[x|]|]; simplify_eq; simpl;
      by rewrite ?EW.
  - unfold wait in E. by destruct (coordinator w); simplify_eq.
  - unfold wait in E. by destruct (coordinator w); simplify_eq.
  - unfold wait in E. by destruct (coordinator w); simplify_eq.
  - unfold wait in E. by destruct (coordinator w); simplify_eq.
  - by case_decide; simplify_eq.
Qed.

Lemma abandoned_run tr w w' :
  abandoned w -> run tr w = Some w' -> abandoned w'.
Proof.
  revert w. induction tr as [|ev tr IH]; simpl; intros w H E; [by simplify_eq|].
  destruct (step ev w) as [w1|] eqn:E1; [|done].
  eauto using abandoned_step.
Qed.

End waiting_tasks.

(** X8.  A group that holds a task waiting for cancellation resolves only
    by cancellation.  Let goroutine [i] be inside its task when Wait has
    not been called yet, and let it return only once the context is done,
    as a coordinated task does that waits in [<-ctx.Done()] (the first task
    of [ExampleGroup_Co]), or else with an error.  Then in every such
    schedule the watcher passes the WaitGroup only with the context done,
    and Wait never returns nil: whatever it returns is the cause the
    context holds, also when the select of [wait] takes the watcher's
    send. *)
Theorem a_waiting_task_keeps_Wait_from_nil parent tr1 w1 i r tr2 w :
  run tr1 (start parent) = Some w1 -> coordinator w1 = NotCalled ->
  pool w1 !! i = Some r -> running r ->
  admits (honours i) tr2 w1 = true -> run tr2 w1 = Some w ->
  (passed (watcher w) -> context.Done (ctx (grp w)) = true)
  /\ forall v, Wait (grp w) = Some v ->
       exists c, v = Some c /\ context.Cause (ctx (grp w)) = Some c.
Proof.
  intros E1 EC Hi Hrun Hok E2. pose proof (reachable_consistent _ _ _ E1) as Hc1.
  pose proof (consistent_run _ _ _ Hc1 E2) as Hc.
  pose proof (held_start _ _ _ Hc1 EC Hi) as H0.
  destruct (held_run _ _ _ _ _ Hrun Hc1 H0 Hok E2) as [_ Hp Hv].
  split; [done|]. intros [c|] H; [|done].
  exists c. split; [done|]. by apply Wait_value_cause.
Qed.

Lemma a_waiting_task_keeps_Wait_from_nil_witness :
  run example_Co (start context.Background)
  = Some (after example_Co context.Background)
  /\ coordinator (after example_Co context.Background) = NotCalled
  /\ pool (after example_Co context.Background) !! 0%nat
     = Some (RunCo (fun _ => None))
  /\ admits (honours 0) example_Co_rest (after example_Co context.Background)
     = true
  /\ run example_Co_rest (after example_Co context.Background)
     = Some (after (example_Co ++ example_Co_rest) context.Background)
  /\ Wait (grp (after (example_Co ++ example_Co_rest) context.Background))
     = Some (Some ErrorGroupCanceled)
  /\ forall v,
       Wait (grp (after (example_Co ++ example_Co_rest) context.Background))
       = Some v ->
       exists c, v = Some c
         /\ context.Cause
              (ctx (grp (after (example_Co ++ example_Co_rest)
                           context.Background))) = Some c.
Proof.
  assert (admits (honours 0) example_Co_rest
            (after example_Co context.Background) = true) as H1
    by (vm_compute; reflexivity).
  assert (run example_Co_rest (after example_Co context.Background)
          = Some (after (example_Co ++ example_Co_rest) context.Background))
    as H2 by (vm_compute; reflexivity).
  split; [reflexivity|]. split; [reflexivity|]. split; [reflexivity|].
  split; [exact H1|]. split; [exact H2|]. split; [vm_compute; reflexivity|].
  exact (proj2 (a_waiting_task_keeps_Wait_from_nil context.Background
                  example_Co (after example_Co context.Background) 0%nat
                  (RunCo (fun _ => None)) example_Co_rest
                  (after (example_Co ++ example_Co_rest) context.Background)
                  eq_refl eq_refl eq_refl I H1 H2)).
Defined.

(** X9.  The error of a task is never lost.  If a task that was scheduled
    before Wait was called returns an error, Wait does not return nil, in
    any schedule: the error is latched before the task's [g.done()], so the
    watcher cannot find the counter at zero with the context still live,
    and [wait] reads the cause after its select, also when the select takes
    the watcher's send. *)
Theorem a_task_error_is_never_lost parent tr1 w1 i e tr2 w :
  run tr1 (start parent) = Some w1 -> coordinator w1 = NotCalled ->
  pool w1 !! i = Some (RunTask (Some e)) ->
  run tr2 w1 = Some w ->
  (passed (watcher w) -> context.Done (ctx (grp w)) = true)
  /\ forall v, Wait (grp w) = Some v ->
       exists c, v = Some c /\ context.Cause (ctx (grp w)) = Some c.
Proof.
  intros E1 EC Hi E2. pose proof (reachable_consistent _ _ _ E1) as Hc1.
  pose proof (consistent_run _ _ _ Hc1 E2) as Hc.
  pose proof (held_start _ _ _ Hc1 EC Hi) as H0.
  destruct (failing_held_run _ _ _ _ _ Hc1 H0 E2) as [_ Hp Hv].
  split; [done|]. intros [c|] H; [|done].
  exists c. split; [done|]. by apply Wait_value_cause.
Qed.

Lemma a_task_error_is_never_lost_witness :
  run late_failure (start context.Background)
  = Some (after late_failure context.Background)
  /\ coordinator (after late_failure context.Background) = NotCalled
  /\ pool (after late_failure context.Background) !! 1%nat
     = Some (RunTask (Some (errorString 5)))
  /\ run late_failure_rest (after late_failure context.Background)
     = Some (after (late_failure ++ late_failure_rest) context.Background)
  /\ Wait (grp (after (late_failure ++ late_failure_rest) context.Background))
     = Some (Some (errorString 5))
  /\ forall v,
       Wait (grp (after (late_failure ++ late_failure_rest) context.Background))
       = Some v -> exists c, v = Some c /\ context.Cause
              (ctx (grp (after (late_failure ++ late_failure_rest)
                           context.Background))) = Some c.
Proof.
  assert (run late_failure_rest (after late_failure context.Background)
          = Some (after (late_failure ++ late_failure_rest) context.Background))
    as H2 by (vm_compute; reflexivity).
  split; [reflexivity|]. split; [reflexivity|]. split; [reflexivity|].
  split; [exact H2|]. split; [vm_compute; reflexivity|].
  exact (proj2 (a_task_error_is_never_lost context.Background
                  late_failure (after late_failure context.Background) 1%nat
                  (errorString 5) late_failure_rest
                  (after (late_failure ++ late_failure_rest) context.Background)
                  eq_refl eq_refl eq_refl H2)).
Defined.

(** X10.  A cancelled [wait] abandons its watcher.  Once the select of
    [wait] has taken [<-g.ctx.Done()], nothing receives from [ch] any more:
    in every state that follows the watcher goroutine is still there,
    inside [g.wg.Wait()] or blocked in its send, and the step that would
    take its send is never enabled.  The goroutine outlives Wait and the
    tasks. *)
Theorem a_cancelled_wait_abandons_its_watcher parent tr w :
  run tr (start parent) = Some w -> coordinator w = CaseDone ->
  forall tr' w', run tr' w = Some w' ->
    watching (watcher w') /\ step SelectCh w' = None.
Proof.
  intros E EC tr' w' E'. pose proof (reachable_consistent _ _ _ E) as Hc.
  assert (abandoned w) as H0.
  { destruct Hc as [_ _ _ _ Hp]. rewrite EC in Hp. destruct Hp as [Hw _].
    split; [done|by rewrite EC]. }
  destruct (abandoned_run _ _ _ H0 E') as [Hw Hcoord].
  split; [done|]. unfold step, wait. destruct (panicked w'); [done|].
  by destruct (coordinator w').
Qed.

Lemma a_cancelled_wait_abandons_its_watcher_witness :
  run failing_pair (start context.Background)
  = Some (after failing_pair context.Background)
  /\ coordinator (after failing_pair context.Background) = CaseDone
  /\ run failing_pair_rest (after failing_pair context.Background)
     = Some (after (failing_pair ++ failing_pair_rest) context.Background)
  /\ Wait (grp (after (failing_pair ++ failing_pair_rest) context.Background))
     = Some (Some (errorString 3))
  /\ sync.counter
       (wg (grp (after (failing_pair ++ failing_pair_rest) context.Background)))
     = 0
  /\ watcher (after (failing_pair ++ failing_pair_rest) context.Background)
     = AtSend
  /\ step SelectCh (after (failing_pair ++ failing_pair_rest) context.Background)
     = None.
Proof.
  assert (run failing_pair_rest (after failing_pair context.Background)
          = Some (after (failing_pair ++ failing_pair_rest) context.Background))
    as H2 by (vm_compute; reflexivity).
  split; [reflexivity|]. split; [reflexivity|]. split; [exact H2|].
  split; [vm_compute; reflexivity|]. split; [vm_compute; reflexivity|].
  split; [vm_compute; reflexivity|].
  exact (proj2 (a_cancelled_wait_abandons_its_watcher context.Background
                  failing_pair (after failing_pair context.Background)
                  eq_refl eq_refl failing_pair_rest
                  (after (failing_pair ++ failing_pair_rest) context.Background)
                  H2)).
Defined.

Section earlier_version.

Implicit Types (w : World) (ev : event) (tr : list event).

Lemma same_but_once_refl w : same_but_once w w.
Proof. unfold same_but_once. repeat split; auto. Qed.

(** The two versions of [wait] take the same steps, to states that differ
    at most in the flag of the Once. *)
Lemma same_but_once_step ev w w1 :
  consistent w -> same_but_once w w1 ->
  match step ev w, step_v1 ev w1 with
  | Some a, Some b => same_but_once a b
  | None, None => True
  | _, _ => False
  end.
Proof.
  intros Hc. assert (coordinator w = CaseDone ->
                     context.Done (ctx (grp w)) = true) as HCD.
  { intros EC. destruct Hc as [_ _ _ _ Hp]. rewrite EC in Hp. by destruct Hp as (_ & _ & ?). }
  clear Hc.
  destruct w as [[wgx o wf par cx] p c wa pan],
    w1 as [[wgx1 o1 wf1 par1 cx1] p1 c1 wa1 pan1].
  unfold same_but_once. simpl in *.
  intros (-> & -> & -> & Hwf & -> & -> & -> & -> & Ho).
  unfold Wait in Hwf. simpl in Hwf. subst wf1.
  assert (forall r p,
    same_but_once
      (mkWorld (report r (mkGroup wgx1 o wf par1 cx1)) p c1 wa1 false)
      (mkWorld (report r (mkGroup wgx1 o1 wf par1 cx1)) p c1 wa1 false)) as Hrep.
  { intros [e|] p; unfold same_but_once, report, errored, cancelCause, Wait;
      simpl; [|repeat split; auto].
    destruct Ho as [->|HD].
    - destruct o1; simpl; repeat split; auto.
    - destruct o, o1; simpl; rewrite ?(cancel_idle _ _ _ HD);
        repeat split; auto. }
  unfold step_v1, step. simpl. destruct pan1; [done|].
  destruct ev; simpl.
  - unfold Go, spawn. simpl. destruct (sync.Add 1 wgx1);
      unfold same_but_once; simpl; repeat split; auto.
  - unfold Co, spawn. simpl. destruct (sync.Add 1 wgx1);
      unfold same_but_once; simpl; repeat split; auto.
  - apply (Hrep (Some ErrorGroupCanceled)).
  - unfold same_but_once, parentCancel, Wait. simpl. repeat split; auto.
    destruct Ho as [->|HD]; [by left|right]. by rewrite propagate_idle.
  - unfold task_return. simpl.
    destruct (p1 !! i) as [[t|t| |]|]; simpl; try done; apply Hrep.
  - unfold task_done, done. simpl. destruct (p1 !! i) as [[t|t| |]|]; try done.
    destruct (sync.Add (-1) wgx1); unfold same_but_once; simpl;
      repeat split; auto.
  - unfold wait_v1, wait. simpl. destruct c1; try done;
      unfold same_but_once; simpl; repeat split; auto.
  - unfold watch. simpl. destruct wa1; try done;
      destruct (sync.Wait_enter wgx1); unfold same_but_once; simpl;
      repeat split; auto.
  - unfold watch. simpl. destruct wa1; try done;
      destruct (sync.Wait_wake wgx1) as [[x|]|]; try done;
      unfold same_but_once; simpl; repeat split; auto.
  - unfold wait_v1, wait. simpl. destruct c1; try done;
      destruct (context.Done cx1) eqn:HD; try done;
      unfold same_but_once; simpl; repeat split; auto.
  - unfold wait_v1, wait. simpl. destruct c1; try done;
      destruct wa1; try done;
      unfold same_but_once; simpl; repeat split; auto.
  - unfold wait_v1, wait. simpl. destruct c1; try done.
    specialize (HCD eq_refl).
    unfold same_but_once, errored, cancelCause, Wait. simpl.
    destruct o; simpl; rewrite ?(cancel_idle _ _ _ HCD); repeat split; auto.
  - unfold wait_v1, wait. simpl. destruct c1; try done;
      unfold same_but_once; simpl; repeat split; auto.
  - unfold Wait. simpl. case_decide; try done;
      unfold same_but_once; simpl; repeat split; auto.
Qed.

Lemma same_but_once_run tr w w1 :
  consistent w -> same_but_once w w1 ->
  match run tr w, run_v1 tr w1 with
  | Some a, Some b => same_but_once a b
  | None, None => True
  | _, _ => False
  end.
Proof.
  revert w w1. induction tr as [|ev tr IH]; simpl; intros w w1 Hc H; [done|].
  pose proof (same_but_once_step ev _ _ Hc H) as Hs.
  destruct (step ev w) as [a|] eqn:E, (step_v1 ev w1) as [b|]; try done.
  apply IH; [by eapply consistent_step|done].
Qed.

End earlier_version.

(** X11.  The [g.errored(ErrorParentContextCanceled)] in [wait] makes no
    difference to a caller.  The earlier [wait], whose
    [case <-g.ctx.Done():] is empty, and the present one accept the same
    schedules and reach, step for step, states with the same context and
    cause, the same value stored for Wait, the same WaitGroup, pool and
    program counters, and the same panics; the two states can differ only
    in the flag of the Once, and only when the context is done, where the
    flag decides nothing.  Every call of Wait returns the same value in
    both versions. *)
Theorem errored_in_wait_makes_no_difference parent tr :
  match run tr (start parent), run_v1 tr (start parent) with
  | Some w, Some w1 => same_but_once w w1
  | None, None => True
  | _, _ => False
  end.
Proof.
  apply same_but_once_run; [apply consistent_start|apply same_but_once_refl].
Qed.
